(** * A tf-idf search engine: shallow embedding of [search_engine.py]

    The development follows the Python module top to bottom: the token
    normaliser [clean], the class [Document] (term frequencies of one file)
    and the class [SearchEngine] (inverted index, idf and ranked search).

    Modelling conventions.
    - A Python [str] is a Rocq [string]; a character is the code point
      U+0000..U+00FF with the same number, and the character classes below
      ([str.lower], [str.isspace], the regular-expression class \w) are
      Python's classes on that range.
    - [Document] objects hash and compare by identity.  The objects live in
      a store ([SearchEngine.heap]), and a reference to a document is its
      position in the store.
    - Python floats are idealised: true division of integers is exact
      rational division ([Q]) and [math.log] is the real logarithm ([R]).
    - An operation that can raise returns [option]; [None] is the raised
      exception. *)

From Stdlib Require Import QArith Qabs Qreals Reals Lra Lia Ascii String.
From stdpp Require Import gmap strings list fin_maps sorting.

(** ** Characters and strings *)

Module PyStr.

Definition code (c : ascii) : nat := nat_of_ascii c.

Definition between (lo hi n : nat) : bool := (lo <=? n) && (n <=? hi).

(** [str.isspace] on one character. *)
Definition isspace (c : ascii) : bool :=
  let n := code c in
  between 9 13 n || between 28 32 n || (n =? 133) || (n =? 160).

(** Characters with a lowercase counterpart: A-Z and the capital letters
    U+00C0..U+00DE, the multiplication sign U+00D7 left out. *)
Definition isupper (c : ascii) : bool :=
  let n := code c in
  between 65 90 n || between 192 214 n || between 216 222 n.

Definition lower_char (c : ascii) : ascii :=
  if isupper c then ascii_of_nat (code c + 32) else c.

(** [str.lower]. *)
Fixpoint lower (s : string) : string :=
  match s with
  | EmptyString => EmptyString
  | String c s' => String (lower_char c) (lower s')
  end.

(** The class \w of a [str] pattern: alphanumeric characters and the
    underscore. *)
Definition is_word (c : ascii) : bool :=
  let n := code c in
  between 48 57 n || between 65 90 n || (n =? 95) || between 97 122 n
  || (n =? 170) || between 178 179 n || (n =? 181) || between 185 186 n
  || between 188 190 n || between 192 214 n || between 216 246 n
  || between 248 255 n.

(** [re.compile(r"\W+").sub(repl, s)]: every maximal run of characters
    outside \w is replaced by [repl].  [in_run] tells that the previous
    character already belongs to the run being replaced. *)
Fixpoint sub_nonword_runs (repl : string) (in_run : bool) (s : string) : string :=
  match s with
  | EmptyString => EmptyString
  | String c s' =>
      if is_word c then String c (sub_nonword_runs repl false s')
      else if in_run then sub_nonword_runs repl true s'
      else append repl (sub_nonword_runs repl true s')
  end.

(** The characters of [s] that satisfy [p], in order. *)
Fixpoint keep (p : ascii → bool) (s : string) : string :=
  match s with
  | EmptyString => EmptyString
  | String c s' => if p c then String c (keep p s') else keep p s'
  end.

(** Whether some character of [s] satisfies [p]. *)
Fixpoint has (p : ascii → bool) (s : string) : bool :=
  match s with
  | EmptyString => false
  | String c s' => p c || has p s'
  end.

(** [str.split()] without argument: the maximal runs of characters that are
    not whitespace.  [cur] is the token being read, last character first. *)
Fixpoint split_aux (cur : list ascii) (s : string) : list string :=
  match s with
  | EmptyString =>
      match cur with
      | [] => []
      | _ => [string_of_list_ascii (rev cur)]
      end
  | String c s' =>
      if isspace c then
        match cur with
        | [] => split_aux [] s'
        | _ => string_of_list_ascii (rev cur) :: split_aux [] s'
        end
      else split_aux (c :: cur) s'
  end.

Definition split (s : string) : list string := split_aux [] s.

Fixpoint startswith (s p : string) : bool :=
  match p, s with
  | EmptyString, _ => true
  | String a p', String b s' => Ascii.eqb a b && startswith s' p'
  | String _ _, EmptyString => false
  end.

Definition rev_string (s : string) : string :=
  string_of_list_ascii (rev (list_ascii_of_string s)).

(** [str.endswith]. *)
Definition endswith (s p : string) : bool :=
  startswith (rev_string s) (rev_string p).

(** Truth value of a [str]: false exactly for the empty string. *)
Definition truthy (s : string) : bool :=
  match s with
  | EmptyString => false
  | String _ _ => true
  end.

(** [os.path.join(a, b)] of [posixpath]. *)
Definition os_path_join (a b : string) : string :=
  if startswith b "/" then b
  else if negb (truthy a) || endswith a "/" then append a b
  else append a (append "/" b).

End PyStr.

(** ** [clean] *)

(** [clean(token)] with its default pattern [\W+]. *)
Definition clean (token : string) : string :=
  PyStr.sub_nonword_runs EmptyString false (PyStr.lower token).

(** ** Floats, idealised *)

(** [a / b] on Python integers; [None] is [ZeroDivisionError]. *)
Definition true_div (a b : nat) : option Q :=
  match b with
  | O => None
  | S _ => Some (inject_Z (Z.of_nat a) / inject_Z (Z.of_nat b))%Q
  end.

(** [math.log(x)]; [None] is the [ValueError] of a non-positive argument. *)
Definition math_log (x : Q) : option R :=
  if Qle_bool x 0 then None else Some (ln (Q2R x)).

(** [sum(xs)]: left to right, from 0. *)
Definition py_sum (xs : list R) : R := fold_left Rplus xs 0%R.

(** [sorted(l, key=key, reverse=True)]: a stable sort into non-increasing
    keys, elements of equal key keeping their order in [l]. *)
Fixpoint insert_desc {A} (key : A → R) (x : A) (l : list A) : list A :=
  match l with
  | [] => [x]
  | y :: l' =>
      if Rle_dec (key y) (key x) then x :: y :: l'
      else y :: insert_desc key x l'
  end.

Fixpoint sorted_desc {A} (key : A → R) (l : list A) : list A :=
  match l with
  | [] => []
  | x :: l' => insert_desc key x (sorted_desc key l')
  end.

(** ** class Document *)

Module Document.

Record t := mk {
  path : string;
  term_freq : gmap string Q;
  words : list string
}.

(** The counting loop of [__init__]: one step per word. *)
Definition count_word (tf : gmap string nat) (word : string) : gmap string nat :=
  let clean_word := clean word in
  if PyStr.truthy clean_word
  then <[clean_word := default 0 (tf !! clean_word) + 1]> tf
  else tf.

Definition total_words (ws : list string) : nat :=
  match ws with
  | [] => 1
  | _ => length ws
  end.

(** [Document(path)], where [content] is what reading the file at [path]
    returns.  The divisor [total_words] is never 0 (see
    [total_words_pos]), so the division cannot raise. *)
Definition init (path content : string) : t :=
  let ws := PyStr.split content in
  let counts := fold_left count_word ws ∅ in
  let total := total_words ws in
  {| path := path;
     term_freq :=
       (λ c : nat, inject_Z (Z.of_nat c) / inject_Z (Z.of_nat total))%Q <$> counts;
     words := ws |}.

Definition term_frequency (d : t) (term : string) : Q :=
  let term := clean term in
  default 0%Q (term_freq d !! term).

Definition get_path (d : t) : string := path d.

Definition get_words (d : t) : gset string := dom (term_freq d).

End Document.

(** ** class SearchEngine *)

Module SearchEngine.

(** [heap] is the store of the [Document] objects the constructor has
    created, in creation order; the lists of [all_index] hold references
    into it. *)
Record t := mk {
  path : string;
  count : nat;
  all_index : gmap string (list nat);
  heap : list Document.t
}.

(** [index.setdefault(word, []).append(ref)]. *)
Definition setdefault_append (ref : nat) (index : gmap string (list nat))
    (word : string) : gmap string (list nat) :=
  <[word := default [] (index !! word) ++ [ref]]> index.

(** One round of the loop of [__init__]: [entry] is a name listed by
    [os.listdir] with the text of that file.  The words of the new document
    are taken in the order of [elements]; any other order of iteration
    builds the same index (see [fold_setdefault_order]). *)
Definition index_file (dir extension : string) (st : t)
    (entry : string * string) : t :=
  let filename := entry.1 in
  if PyStr.endswith filename extension then
    let full_path := PyStr.os_path_join dir filename in
    let new_doc := Document.init full_path entry.2 in
    let ref := length (heap st) in
    {| path := path st;
       count := count st + 1;
       all_index :=
         fold_left (setdefault_append ref)
           (elements (Document.get_words new_doc)) (all_index st);
       heap := heap st ++ [new_doc] |}
  else st.

(** [SearchEngine(path, extension)] on a directory whose listing is
    [listing]. *)
Definition init (dir extension : string) (listing : list (string * string)) : t :=
  fold_left (index_file dir extension) listing
    {| path := dir; count := 0; all_index := ∅; heap := [] |}.

Definition _calculate_idf (eng : t) (term : string) : option R :=
  match all_index eng !! term with
  | Some l => q ← true_div (count eng) (length l); math_log q
  | None => Some 0%R
  end.

Definition query_terms (query : string) : list string :=
  clean <$> PyStr.split query.

(** The first loop of [search]. *)
Definition matching_docs (eng : t) (terms : list string) : gset nat :=
  fold_left
    (λ (acc : gset nat) term,
       match all_index eng !! term with
       | Some l => acc ∪ list_to_set l
       | None => acc
       end)
    terms ∅.

(** [total_score] of the document at reference [ref]. *)
Definition total_score (eng : t) (terms : list string) (ref : nat) : option R :=
  doc ← heap eng !! ref;
  py_sum <$>
    mapM (λ term,
            idf ← _calculate_idf eng term;
            Some (idf * Q2R (Document.term_frequency doc term))%R)
         terms.

(** The items of [big_list] in insertion order.  [iter] is the order in
    which the running interpreter iterates over a set of documents. *)
Definition big_list (iter : gset nat → list nat) (eng : t)
    (terms : list string) : option (list (nat * R)) :=
  mapM (λ ref, s ← total_score eng terms ref; Some (ref, s))
       (iter (matching_docs eng terms)).

Definition sorted_docs (iter : gset nat → list nat) (eng : t)
    (query : string) : option (list (nat * R)) :=
  sorted_desc snd <$> big_list iter eng (query_terms query).

Definition search (iter : gset nat → list nat) (eng : t)
    (query : string) : option (list string) :=
  items ← sorted_docs iter eng query;
  mapM (λ item : nat * R, Document.get_path <$> heap eng !! item.1) items.

End SearchEngine.

(** An iteration order of sets: every element once. *)
Definition set_order (iter : gset nat → list nat) : Prop :=
  ∀ s, iter s ≡ₚ elements s.

(** ** The specification's wording, for comparison *)

Module Spec.

Definition is_ascii_alnum (c : ascii) : bool :=
  let n := PyStr.code c in
  PyStr.between 48 57 n || PyStr.between 65 90 n || PyStr.between 97 122 n.

(** "Lowercases the token, then removes every maximal run of characters
    that are not ASCII letters or digits." *)
Definition normalize (token : string) : string :=
  PyStr.keep is_ascii_alnum (PyStr.lower token).

(** "Normalize term.  If absent from invertedIndex, return 0.0.  Otherwise
    return ln(documentCount / |invertedIndex[term]|)." *)
Definition idf (eng : SearchEngine.t) (term : string) : R :=
  match SearchEngine.all_index eng !! clean term with
  | None => 0%R
  | Some l => ln (INR (SearchEngine.count eng) / INR (length l))
  end.

End Spec.

(** The tokens of [content] that survive cleaning. *)
Definition surviving (content : string) : list string :=
  filter (λ w, PyStr.truthy w) (clean <$> PyStr.split content).

(** Occurrences of [x] in [l]. *)
Definition occurrences (x : string) (l : list string) : nat :=
  length (filter (λ w, w = x) l).

(** The demo directory of the module and of its tests. *)
Definition doggos : list (string * string) :=
  [("doc1.txt", "dogs are the greatest pets");
   ("doc2.txt", "cats seem pretty okay");
   ("doc3.txt", "i love dogs")]%string.

Definition doggos_engine : SearchEngine.t :=
  SearchEngine.init "doggos" ".txt" doggos.

(** A directory listing as [os.listdir] gives it: no name twice, no name
    starting with a slash. *)
Definition listdir_ok (listing : list (string * string)) : Prop :=
  NoDup listing.*1 ∧ Forall (λ name, PyStr.startswith name "/" = false) listing.*1.

(** The names of [listing] that the constructor indexes. *)
Definition indexed_names (extension : string) (listing : list (string * string))
    : list string :=
  filter (λ name, PyStr.endswith name extension) listing.*1.

(** The references, counted from [i], of the documents of [h] whose
    vocabulary has [word], in store order. *)
Fixpoint postings_from (i : nat) (h : list Document.t) (word : string) : list nat :=
  match h with
  | [] => []
  | d :: h' =>
      (if decide (word ∈ Document.get_words d) then [i] else [])
      ++ postings_from (S i) h' word
  end.

Definition postings (h : list Document.t) (word : string) : list nat :=
  postings_from 0 h word.

(** What the constructor maintains: the counter is the size of the store,
    every entry of the index is the non-empty list of the documents having
    the word, and every stored document was built by [Document.init]. *)
Definition index_inv (st : SearchEngine.t) : Prop :=
  SearchEngine.count st = length (SearchEngine.heap st)
  ∧ (∀ word,
       SearchEngine.all_index st !! word =
         match postings (SearchEngine.heap st) word with
         | [] => None
         | r :: l => Some (r :: l)
         end)
  ∧ Forall (λ d, ∃ p c, d = Document.init p c) (SearchEngine.heap st).

(** The score [search] gives to the document at [ref]; the value 0 stands
    in where [total_score] would raise. *)
Definition score (eng : SearchEngine.t) (terms : list string) (ref : nat) : R :=
  default 0%R (SearchEngine.total_score eng terms ref).

(** The path of the document at [ref]. *)
Definition path_at (eng : SearchEngine.t) (ref : nat) : string :=
  from_option Document.get_path EmptyString (SearchEngine.heap eng !! ref).

(** [a] may stand before [b] in a ranking: its score is not smaller. *)
Definition desc (a b : nat * R) : Prop := (b.2 <= a.2)%R.

(** The ranking [search] computes: the candidates in iteration order, each
    with its score, sorted. *)
Definition ranked (iter : gset nat → list nat) (eng : SearchEngine.t)
    (query : string) : list (nat * R) :=
  let terms := SearchEngine.query_terms query in
  sorted_desc snd
    ((λ ref, (ref, score eng terms ref)) <$> iter (SearchEngine.matching_docs eng terms)).

(** The value of [_calculate_idf] where it does not raise. *)
Definition idf_value_of (eng : SearchEngine.t) (term : string) : R :=
  match SearchEngine.all_index eng !! term with
  | None => 0%R
  | Some l => ln (INR (SearchEngine.count eng) / INR (length l))
  end.

(** [term_frequency] of the document at [ref]. *)
Definition tf_at (eng : SearchEngine.t) (ref : nat) (term : string) : Q :=
  from_option (λ d, Document.term_frequency d term) 0%Q (SearchEngine.heap eng !! ref).

(** A directory of two files with the same words. *)
Definition twins : list (string * string) :=
  [("a.txt", "x"); ("b.txt", "x")]%string.

Definition twins_engine : SearchEngine.t := SearchEngine.init "t" ".txt" twins.

(** ** The rest of the module *)

(** [Document.__repr__]. *)
Definition Document_repr (d : Document.t) : string :=
  "Document('" +:+ Document.path d +:+ "')".

(** [SearchEngine.__repr__]. *)
Definition SearchEngine_repr (eng : SearchEngine.t) : string :=
  "SearchEngine('" +:+ SearchEngine.path eng +:+ "')".

(** [p in s] on two strings. *)
Fixpoint contains (s p : string) : bool :=
  PyStr.startswith s p
  || match s with
     | EmptyString => false
     | String _ s' => contains s' p
     end.

(** [" ".join(ws)]. *)
Fixpoint join_blank (ws : list string) : string :=
  match ws with
  | [] => EmptyString
  | w :: ws' =>
      match ws' with
      | [] => w
      | _ :: _ => w +:+ " " +:+ join_blank ws'
      end
  end.

(** [actual == pytest.approx(expected)] with the default tolerances: a
    relative 1e-6 and an absolute 1e-12, the larger of the two. *)
Definition approx_eq (actual expected : Q) : bool :=
  let rel := ((1 # 1000000) * Qabs expected)%Q in
  let abs := (1 # 1000000000000)%Q in
  let tolerance := if Qle_bool rel abs then abs else rel in
  Qle_bool (Qabs (actual - expected)) tolerance.

(** [str(folder / name)] for a [pathlib] path [folder] other than a root. *)
Definition path_div (folder name : string) : string :=
  folder +:+ "/" +:+ name.

(** The entries of [listing] that the constructor indexes. *)
Definition indexed_entries (extension : string)
    (listing : list (string * string)) : list (string * string) :=
  filter (λ entry, PyStr.endswith entry.1 extension) listing.


(** The unit tests of the module; a test is the conjunction of its
    assertions. *)
Module TestDocument.

Definition sample_docs (folder : string) : Document.t * Document.t * Document.t :=
  (Document.init (path_div folder "doc1.txt") "dogs are the greatest pets",
   Document.init (path_div folder "doc2.txt") "i believe in manicures",
   Document.init (path_div folder "doc3.txt")
     "dont judge a polish by its first coat").

Definition test_term_frequency (folder : string) : Prop :=
  let '(doc1, doc2, doc3) := sample_docs folder in
  approx_eq (Document.term_frequency doc1 "dogs") (1 # 5) = true
  ∧ approx_eq (Document.term_frequency doc2 "manicures") (1 # 4) = true
  ∧ approx_eq (Document.term_frequency doc3 "coat") (1 # 7) = true.

Definition test_get_words (folder : string) : Prop :=
  let '(doc1, doc2, doc3) := sample_docs folder in
  Document.get_words doc1
    = ({["dogs"; "are"; "the"; "greatest"; "pets"]} : gset string)
  ∧ "manicures"%string ∈ Document.get_words doc2
  ∧ "coat"%string ∈ Document.get_words doc3.

Definition test_repr (folder : string) : Prop :=
  let '(doc1, _, _) := sample_docs folder in
  PyStr.startswith (Document_repr doc1) "Document(" = true
  ∧ contains (Document_repr doc1) "doc1.txt" = true.

End TestDocument.

Module TestSearchEngine.

(** The engine of the fixture: [listing] is what [os.listdir] gives for the
    folder that holds the three files. *)
Definition search_setup (folder : string) (listing : list (string * string))
    : SearchEngine.t :=
  SearchEngine.init folder ".txt" listing.

Definition test_calculate_idf (engine : SearchEngine.t) : Prop :=
  (∃ v, SearchEngine._calculate_idf engine "dogs" = Some v ∧ (v > 0)%R)
  ∧ SearchEngine._calculate_idf engine "nonexistent" = Some 0%R.

Definition test_search_single_term (iter : gset nat → list nat)
    (engine : SearchEngine.t) : Prop :=
  ∃ results,
    SearchEngine.search iter engine "dogs" = Some results
    ∧ existsb (λ r, contains r "doc1.txt") results = true
    ∧ existsb (λ r, contains r "doc3.txt") results = true.

Definition test_search_multi_term (iter : gset nat → list nat)
    (engine : SearchEngine.t) : Prop :=
  ∃ results r0 r1,
    SearchEngine.search iter engine "love dogs" = Some results
    ∧ results !! 0 = Some r0 ∧ PyStr.endswith r0 "doc3.txt" = true
    ∧ results !! 1 = Some r1 ∧ PyStr.endswith r1 "doc1.txt" = true.

End TestSearchEngine.

(** A token as [str.split()] gives it: not empty, without whitespace. *)
Definition token_ok (w : string) : Prop :=
  PyStr.truthy w = true ∧ PyStr.has PyStr.isspace w = false.

(** Two engines with the same counter, the same inverted index and, place
    by place, documents with the same frequency table. *)
Definition same_index (e1 e2 : SearchEngine.t) : Prop :=
  SearchEngine.count e1 = SearchEngine.count e2
  ∧ SearchEngine.all_index e1 = SearchEngine.all_index e2
  ∧ Document.term_freq <$> SearchEngine.heap e1
    = Document.term_freq <$> SearchEngine.heap e2.

(** The name of the file behind the document at [ref]. *)
Definition name_at (extension : string) (listing : list (string * string))
    (ref : nat) : string :=
  from_option fst EmptyString (indexed_entries extension listing !! ref).

(** * Properties *)

(** [elements] is an iteration order. *)
Ltac elements_order := intros ?; reflexivity.

(** A concrete listing is well formed. *)
Ltac listdir_ok_by_evaluation :=
  split; [apply (bool_decide_unpack _); by vm_compute | repeat constructor].

(** ** Strings *)

Lemma isupper_is_word c : PyStr.isupper c = true → PyStr.is_word c = true.
Proof. destruct c as [[] [] [] [] [] [] [] []]; vm_compute; congruence. Qed.

Lemma lower_char_is_word c : PyStr.is_word (PyStr.lower_char c) = PyStr.is_word c.
Proof. destruct c as [[] [] [] [] [] [] [] []]; vm_compute; reflexivity. Qed.

Lemma sub_nonword_runs_empty b s :
  PyStr.sub_nonword_runs EmptyString b s = PyStr.keep PyStr.is_word s.
Proof.
  revert b. induction s as [|c s IH]; intros b; simpl; [done|].
  destruct (PyStr.is_word c); [by rewrite IH|].
  destruct b; simpl; by rewrite IH.
Qed.

Lemma clean_keep token :
  clean token = PyStr.keep PyStr.is_word (PyStr.lower token).
Proof. apply sub_nonword_runs_empty. Qed.

Lemma truthy_keep p s : PyStr.truthy (PyStr.keep p s) = PyStr.has p s.
Proof.
  induction s as [|c s IH]; simpl; [done|].
  destruct (p c); simpl; done.
Qed.

Lemma has_word_lower s :
  PyStr.has PyStr.is_word (PyStr.lower s) = PyStr.has PyStr.is_word s.
Proof.
  induction s as [|c s IH]; cbn [PyStr.lower PyStr.has]; [done|].
  by rewrite lower_char_is_word, IH.
Qed.

Lemma keep_idemp p s : PyStr.keep p (PyStr.keep p s) = PyStr.keep p s.
Proof.
  induction s as [|c s IH]; simpl; [done|].
  destruct (p c) eqn:E; simpl; [rewrite E|]; by rewrite ?IH.
Qed.

Lemma lower_keep_word s :
  PyStr.lower (PyStr.keep PyStr.is_word (PyStr.lower s))
  = PyStr.keep PyStr.is_word (PyStr.lower s).
Proof.
  induction s as [|c s IH]; cbn [PyStr.lower PyStr.keep]; [done|].
  destruct (PyStr.is_word (PyStr.lower_char c)) eqn:E;
    cbn [PyStr.lower PyStr.keep]; [|done].
  rewrite IH. f_equal.
  clear. destruct c as [[] [] [] [] [] [] [] []]; vm_compute; reflexivity.
Qed.

(** Cleaning a cleaned token changes nothing. *)
Lemma clean_idemp token : clean (clean token) = clean token.
Proof. by rewrite !clean_keep, lower_keep_word, keep_idemp. Qed.

(** C3 (amended): [clean] lowercases the token and keeps exactly the word
    characters (letters, digits and the underscore), in order; the result
    is empty exactly when the token has no word character; it sends
    "Hello!" to "hello", "DON'T" to "dont" and "..." to the empty string. *)
Theorem clean_keeps_word_characters (token : string) :
  clean token = PyStr.keep PyStr.is_word (PyStr.lower token)
  ∧ PyStr.truthy (clean token) = PyStr.has PyStr.is_word token
  ∧ clean "Hello!" = "hello"%string
  ∧ clean "DON'T" = "dont"%string
  ∧ clean "..." = EmptyString.
Proof.
  split; [apply clean_keep|].
  split; [by rewrite clean_keep, truthy_keep, has_word_lower|].
  by vm_compute.
Qed.

(** C3, as stated, fails on the underscore: it is neither an ASCII letter
    nor a digit, and [clean] keeps it. *)
Lemma clean_keeps_underscore :
  clean "a_b" = "a_b"%string ∧ clean "a_b" ≠ Spec.normalize "a_b".
Proof. split; [by vm_compute|]. vm_compute. discriminate. Qed.

(** ** Documents *)

Lemma total_words_max ws : Document.total_words ws = Nat.max 1 (length ws).
Proof. destruct ws as [|w [|w' ws]]; simpl; lia. Qed.

Lemma total_words_pos ws : 0 < Document.total_words ws.
Proof. rewrite total_words_max. lia. Qed.

Lemma occurrences_cons x w l :
  occurrences x (w :: l) = (if decide (w = x) then 1 else 0) + occurrences x l.
Proof.
  unfold occurrences. rewrite filter_cons.
  destruct (decide (w = x)); simpl; done.
Qed.

(** The counting loop adds to each entry the number of surviving tokens
    equal to its key, and creates no entry for a key without such token. *)
Lemma fold_count_word_lookup ws (m : gmap string nat) t :
  fold_left Document.count_word ws m !! t =
    let n := occurrences t (filter (λ w, PyStr.truthy w) (clean <$> ws)) in
    match m !! t with
    | Some c => Some (c + n)
    | None => match n with O => None | S _ => Some n end
    end.
Proof.
  revert m. induction ws as [|w ws IH]; intros m.
  { unfold occurrences. cbn. destruct (m !! t); [f_equal; lia|done]. }
  cbn [fold_left]. rewrite IH, fmap_cons, filter_cons. clear IH.
  unfold Document.count_word.
  destruct (PyStr.truthy (clean w)) eqn:Hw; cbn [decide_rel]; [|done].
  rewrite decide_True by done. rewrite occurrences_cons.
  generalize (occurrences t (filter (λ w, PyStr.truthy w) (clean <$> ws))).
  intros k. destruct (decide (clean w = t)) as [->|Hne].
  - rewrite lookup_insert_eq. destruct (m !! t); cbn; f_equal; lia.
  - rewrite lookup_insert_ne by done. done.
Qed.

Lemma counts_lookup content t :
  fold_left Document.count_word (PyStr.split content) ∅ !! t =
    match occurrences t (surviving content) with
    | O => None
    | S n => Some (S n)
    end.
Proof.
  rewrite fold_count_word_lookup, lookup_empty. unfold surviving.
  by destruct (occurrences _ _).
Qed.

Lemma term_freq_lookup path content t :
  Document.term_freq (Document.init path content) !! t =
    match occurrences t (surviving content) with
    | O => None
    | S n =>
        Some (inject_Z (Z.of_nat (S n))
              / inject_Z (Z.of_nat (Document.total_words (PyStr.split content))))%Q
    end.
Proof.
  unfold Document.init; simpl. rewrite lookup_fmap, counts_lookup.
  destruct (occurrences t (surviving content)); done.
Qed.

Lemma Qdiv_nat_pos a b :
  (0 < a)%nat → (0 < b)%nat → (0 < inject_Z (Z.of_nat a) / inject_Z (Z.of_nat b))%Q.
Proof.
  intros Ha Hb. apply Qlt_shift_div_l.
  - unfold Qlt, inject_Z; cbn [Qnum Qden]. lia.
  - rewrite Qmult_0_l. unfold Qlt, inject_Z; cbn [Qnum Qden]. lia.
Qed.

Lemma Qdiv_nat_nonneg a b :
  (0 <= inject_Z (Z.of_nat a) / inject_Z (Z.of_nat b))%Q.
Proof.
  unfold Qdiv. apply Qmult_le_0_compat.
  - unfold Qle, inject_Z; cbn [Qnum Qden]. lia.
  - apply Qinv_le_0_compat. unfold Qle, inject_Z; cbn [Qnum Qden]. lia.
Qed.

(** Every stored frequency is positive. *)
Lemma term_freq_pos path content t f :
  Document.term_freq (Document.init path content) !! t = Some f → (0 < f)%Q.
Proof.
  rewrite term_freq_lookup.
  destruct (occurrences t (surviving content)); [done|].
  intros [= <-]. apply Qdiv_nat_pos; [lia|apply total_words_pos].
Qed.

Lemma term_frequency_nonneg path content term :
  (0 <= Document.term_frequency (Document.init path content) term)%Q.
Proof.
  unfold Document.term_frequency. rewrite term_freq_lookup.
  destruct (occurrences _ _); simpl; [apply Qle_refl|apply Qdiv_nat_nonneg].
Qed.

(** C4: for a document built from [content], [term_frequency term] is the
    number of occurrences of the cleaned term among the surviving tokens
    divided by max(1, number of raw whitespace tokens); it is 0 for a term
    that does not occur; for "dogs are the greatest pets" the frequency of
    "dogs" is 1/5. *)
Theorem term_frequency_ratio (path content term : string) :
  let d := Document.init path content in
  let occ := occurrences (clean term) (surviving content) in
  let total := Nat.max 1 (length (PyStr.split content)) in
  Document.term_frequency d term
    = (if occ =? 0 then 0 else inject_Z (Z.of_nat occ) / inject_Z (Z.of_nat total))%Q
  ∧ (Document.term_frequency d term
       == inject_Z (Z.of_nat occ) / inject_Z (Z.of_nat total))%Q
  ∧ (Document.term_frequency
       (Document.init path "dogs are the greatest pets") "dogs" == 1 # 5)%Q.
Proof.
  intros d occ total.
  assert (Document.term_frequency d term
    = (if occ =? 0 then 0 else inject_Z (Z.of_nat occ) / inject_Z (Z.of_nat total))%Q)
    as Heq.
  { unfold Document.term_frequency, d. rewrite term_freq_lookup.
    fold occ. rewrite total_words_max. fold total.
    destruct occ; done. }
  split; [done|]. split.
  - rewrite Heq. destruct occ; simpl; [|reflexivity].
    unfold Qdiv. rewrite Qmult_0_l. reflexivity.
  - by vm_compute.
Qed.

(** ** The inverted index *)

Lemma postings_from_snoc i h d word :
  postings_from i (h ++ [d]) word =
    postings_from i h word
    ++ (if decide (word ∈ Document.get_words d) then [i + length h] else []).
Proof.
  revert i. induction h as [|d' h IH]; intros i; simpl.
  - rewrite Nat.add_0_r. by rewrite app_nil_r.
  - rewrite IH, <- app_assoc.
    by replace (S i + length h) with (i + S (length h)) by lia.
Qed.

Lemma elem_of_postings_from i h word r :
  r ∈ postings_from i h word ↔
    i ≤ r ∧ ∃ d, h !! (r - i) = Some d ∧ word ∈ Document.get_words d.
Proof.
  revert i. induction h as [|d h IH]; intros i; simpl.
  - split; [by intros ?%elem_of_nil|]. by intros (_ & d & ? & _).
  - rewrite elem_of_app, IH. split.
    + intros [Hr|(Hle & d' & Hd' & Hw)].
      * destruct (decide (word ∈ Document.get_words d)) as [Hw|];
          [|by apply elem_of_nil in Hr].
        apply list_elem_of_singleton in Hr as ->.
        split; [lia|]. exists d. by rewrite Nat.sub_diag.
      * split; [lia|]. exists d'. split; [|done].
        replace (r - i) with (S (r - S i)) by lia. done.
    + intros (Hle & d' & Hd' & Hw).
      destruct (decide (r = i)) as [->|Hne].
      * left. rewrite Nat.sub_diag in Hd'. injection Hd' as ->.
        rewrite decide_True by done. by apply list_elem_of_singleton.
      * right. split; [lia|]. exists d'. split; [|done].
        replace (r - i) with (S (r - S i)) in Hd' by lia. done.
Qed.

Lemma NoDup_postings_from i h word : NoDup (postings_from i h word).
Proof.
  revert i. induction h as [|d h IH]; intros i; simpl; [constructor|].
  destruct (decide (word ∈ Document.get_words d)); simpl; [|done].
  constructor; [|done]. rewrite elem_of_postings_from. lia.
Qed.

Lemma length_postings_from i h word : length (postings_from i h word) ≤ length h.
Proof.
  revert i. induction h as [|d h IH]; intros i; simpl; [done|].
  rewrite length_app. specialize (IH (S i)).
  destruct (decide (word ∈ Document.get_words d)); simpl; lia.
Qed.

Lemma elem_of_postings h word r :
  r ∈ postings h word ↔ ∃ d, h !! r = Some d ∧ word ∈ Document.get_words d.
Proof.
  unfold postings. rewrite elem_of_postings_from, Nat.sub_0_r.
  split; [by intros [_ ?]|]. intros ?. split; [lia|done].
Qed.

(** Appending one reference to the entries of pairwise distinct words. *)
Lemma fold_setdefault_lookup ref ws (index : gmap string (list nat)) word :
  NoDup ws →
  fold_left (SearchEngine.setdefault_append ref) ws index !! word =
    if decide (word ∈ ws) then Some (default [] (index !! word) ++ [ref])
    else index !! word.
Proof.
  intros Hnd. revert index.
  induction Hnd as [|w ws Hw Hnd IH]; intros index; simpl.
  { done. }
  rewrite IH. unfold SearchEngine.setdefault_append.
  destruct (decide (word = w)) as [->|Hne].
  - rewrite lookup_insert_eq, decide_False by done.
    rewrite decide_True; [done|]. by left.
  - rewrite lookup_insert_ne by done.
    destruct (decide (word ∈ ws)) as [Hin|Hnin].
    + rewrite decide_True; [done|]. by right.
    + rewrite decide_False; [done|].
      intros [?|?]%elem_of_cons; done.
Qed.

(** The index built from a set of words does not depend on the order in
    which the set is iterated. *)
Lemma fold_setdefault_order ref ws1 ws2 (index : gmap string (list nat)) :
  NoDup ws1 → ws1 ≡ₚ ws2 →
  fold_left (SearchEngine.setdefault_append ref) ws1 index
  = fold_left (SearchEngine.setdefault_append ref) ws2 index.
Proof.
  intros Hnd Hp. apply map_eq. intros word.
  rewrite !fold_setdefault_lookup; [|by rewrite <- Hp|done].
  destruct (decide (word ∈ ws1)) as [H1|H1].
  - rewrite decide_True; [done|]. by rewrite <- Hp.
  - rewrite decide_False; [done|]. by rewrite <- Hp.
Qed.

Lemma index_inv_empty dir :
  index_inv {| SearchEngine.path := dir; SearchEngine.count := 0;
               SearchEngine.all_index := ∅; SearchEngine.heap := [] |}.
Proof.
  split; [done|]. split; [|constructor].
  intros word. simpl. apply lookup_empty.
Qed.

Lemma index_file_inv dir extension st entry :
  index_inv st → index_inv (SearchEngine.index_file dir extension st entry).
Proof.
  intros (Hcount & Hindex & Hdocs). unfold SearchEngine.index_file.
  destruct (PyStr.endswith entry.1 extension); [|done].
  split; [|split]; simpl.
  - rewrite length_app. simpl. lia.
  - intros word.
    rewrite fold_setdefault_lookup by apply NoDup_elements.
    unfold postings. rewrite postings_from_snoc. fold (postings (SearchEngine.heap st) word).
    rewrite Hindex.
    set (d := Document.init _ _).
    destruct (decide (word ∈ elements (Document.get_words d))) as [Hin|Hnin].
    + apply elem_of_elements in Hin. rewrite decide_True by done.
      by destruct (postings (SearchEngine.heap st) word).
    + rewrite elem_of_elements in Hnin. rewrite decide_False by done.
      by rewrite app_nil_r.
  - apply Forall_app. split; [done|]. constructor; [|constructor]. eauto.
Qed.

Lemma fold_index_file_inv dir extension listing st :
  index_inv st →
  index_inv (fold_left (SearchEngine.index_file dir extension) listing st).
Proof.
  revert st. induction listing as [|entry listing IH]; intros st Hst; simpl; [done|].
  apply IH. by apply index_file_inv.
Qed.

Lemma init_inv dir extension listing :
  index_inv (SearchEngine.init dir extension listing).
Proof. apply fold_index_file_inv, index_inv_empty. Qed.

Lemma inv_lookup_Some st word l :
  index_inv st → SearchEngine.all_index st !! word = Some l →
  l = postings (SearchEngine.heap st) word ∧ 0 < length l.
Proof.
  intros (_ & Hindex & _). rewrite Hindex.
  destruct (postings (SearchEngine.heap st) word); [done|].
  intros [= <-]. simpl. split; [done|lia].
Qed.

Lemma inv_lookup_None st word :
  index_inv st → SearchEngine.all_index st !! word = None →
  postings (SearchEngine.heap st) word = [].
Proof.
  intros (_ & Hindex & _). rewrite Hindex.
  by destruct (postings (SearchEngine.heap st) word).
Qed.

Lemma inv_lookup_bounds st word l :
  index_inv st → SearchEngine.all_index st !! word = Some l →
  0 < length l ≤ SearchEngine.count st.
Proof.
  intros Hinv Hl. destruct (inv_lookup_Some _ _ _ Hinv Hl) as [-> Hpos].
  split; [done|]. destruct Hinv as (-> & _). apply length_postings_from.
Qed.

Lemma inv_lookup_valid st word l r :
  index_inv st → SearchEngine.all_index st !! word = Some l → r ∈ l →
  ∃ p c, SearchEngine.heap st !! r = Some (Document.init p c)
         ∧ word ∈ Document.get_words (Document.init p c).
Proof.
  intros Hinv Hl Hr. destruct (inv_lookup_Some _ _ _ Hinv Hl) as [-> _].
  apply elem_of_postings in Hr as (d & Hd & Hw).
  destruct Hinv as (_ & _ & Hdocs).
  rewrite Forall_lookup in Hdocs. destruct (Hdocs _ _ Hd) as (p & c & ->).
  eauto.
Qed.

(** C7: in a built engine a term is a key of the inverted index iff the
    frequency table of at least one document holds it with a nonzero
    frequency; the entry of a term lists exactly the documents whose
    vocabulary has the term, each once; its length is at most the document
    count, which is the number of documents built. *)
Theorem inverted_index_invariant (dir extension : string)
    (listing : list (string * string)) :
  let eng := SearchEngine.init dir extension listing in
  (∀ term, is_Some (SearchEngine.all_index eng !! term) ↔
     ∃ d f, d ∈ SearchEngine.heap eng
            ∧ Document.term_freq d !! term = Some f ∧ (0 < f)%Q)
  ∧ (∀ term l, SearchEngine.all_index eng !! term = Some l →
       NoDup l
       ∧ length l ≤ SearchEngine.count eng
       ∧ ∀ r, r ∈ l ↔
           ∃ d, SearchEngine.heap eng !! r = Some d
                ∧ term ∈ Document.get_words d)
  ∧ SearchEngine.count eng = length (SearchEngine.heap eng).
Proof.
  intros eng. pose proof (init_inv dir extension listing) as Hinv. fold eng in Hinv.
  split; [|split].
  - intros term. split.
    + intros [l Hl].
      destruct (inv_lookup_Some _ _ _ Hinv Hl) as [_ Hpos].
      destruct l as [|r l]; [simpl in Hpos; lia|].
      destruct (inv_lookup_valid _ _ _ r Hinv Hl) as (p & c & Hd & Hw); [by left|].
      unfold Document.get_words in Hw. apply elem_of_dom in Hw as [f Hf].
      exists (Document.init p c), f. split; [|split; [done|]].
      * by eapply list_elem_of_lookup_2.
      * by eapply term_freq_pos.
    + intros (d & f & Hd & Hf & _).
      apply list_elem_of_lookup in Hd as [r Hr].
      assert (r ∈ postings (SearchEngine.heap eng) term) as Hin.
      { apply elem_of_postings. exists d. split; [done|].
        unfold Document.get_words. apply elem_of_dom. by exists f. }
      destruct Hinv as (_ & Hindex & _). rewrite Hindex.
      destruct (postings (SearchEngine.heap eng) term); [|done].
      by apply elem_of_nil in Hin.
  - intros term l Hl.
    pose proof (inv_lookup_bounds _ _ _ Hinv Hl) as [_ Hle].
    destruct (inv_lookup_Some _ _ _ Hinv Hl) as [-> _].
    split; [apply NoDup_postings_from|]. split; [done|].
    intros r. apply elem_of_postings.
  - by destruct Hinv as (? & _).
Qed.

(** On the demo directory: "dogs" is indexed, by the first and the third
    document. *)
Lemma inverted_index_invariant_doggos :
  is_Some (SearchEngine.all_index doggos_engine !! "dogs")
  ∧ ∃ d f, d ∈ SearchEngine.heap doggos_engine
           ∧ Document.term_freq d !! "dogs" = Some f ∧ (0 < f)%Q.
Proof.
  assert (is_Some (SearchEngine.all_index doggos_engine !! "dogs")) as H.
  { exists [0; 2]. by vm_compute. }
  split; [done|].
  by apply (inverted_index_invariant "doggos" ".txt" doggos).
Defined.

(** ** Inverse document frequency *)

Lemma Q2R_inject_nat n : Q2R (inject_Z (Z.of_nat n)) = INR n.
Proof. unfold Q2R, inject_Z; cbn [Qnum Qden]. rewrite INR_IZR_INZ. lra. Qed.

Lemma Q2R_div_nat a b :
  0 < b → Q2R (inject_Z (Z.of_nat a) / inject_Z (Z.of_nat b)) = (INR a / INR b)%R.
Proof.
  intros Hb. rewrite Q2R_div, !Q2R_inject_nat; [done|].
  unfold Qeq, inject_Z; cbn [Qnum Qden]. lia.
Qed.

(** On a store that satisfies the invariant the quotient and the logarithm
    are defined. *)
Lemma idf_value st term l :
  index_inv st → SearchEngine.all_index st !! term = Some l →
  SearchEngine._calculate_idf st term
  = Some (ln (INR (SearchEngine.count st) / INR (length l))).
Proof.
  intros Hinv Hl. pose proof (inv_lookup_bounds _ _ _ Hinv Hl) as [Hpos Hle].
  unfold SearchEngine._calculate_idf. rewrite Hl.
  unfold true_div. destruct (length l) as [|k] eqn:Hk; [lia|]. simpl.
  unfold math_log.
  destruct (Qle_bool _ 0) eqn:Hq.
  - apply Qle_bool_iff in Hq.
    pose proof (Qdiv_nat_pos (SearchEngine.count st) (S k)) as Hlt.
    apply Qle_not_lt in Hq. destruct Hq. apply Hlt; lia.
  - by rewrite Q2R_div_nat by lia.
Qed.

Lemma idf_absent st term :
  SearchEngine.all_index st !! term = None →
  SearchEngine._calculate_idf st term = Some 0%R.
Proof. intros Hl. unfold SearchEngine._calculate_idf. by rewrite Hl. Qed.

Lemma ratio_ge_1 (n k : nat) : 0 < k ≤ n → (1 <= INR n / INR k)%R.
Proof.
  intros [Hk Hn]. apply lt_INR in Hk. apply le_INR in Hn. simpl in Hk.
  apply (Rmult_le_reg_r (INR k)); [done|].
  unfold Rdiv. rewrite Rmult_assoc, Rinv_l by lra. lra.
Qed.

Lemma idf_nonneg st term v :
  index_inv st → SearchEngine._calculate_idf st term = Some v → (0 <= v)%R.
Proof.
  intros Hinv. destruct (SearchEngine.all_index st !! term) as [l|] eqn:Hl.
  - rewrite (idf_value _ _ _ Hinv Hl). intros [= <-].
    pose proof (ratio_ge_1 _ _ (inv_lookup_bounds _ _ _ Hinv Hl)) as H1.
    rewrite <- ln_1. destruct H1 as [H1| <-]; [|apply Rle_refl].
    left. apply ln_increasing; [lra|done].
  - rewrite (idf_absent _ _ Hl). intros [= <-]. apply Rle_refl.
Qed.

Lemma idf_total st term :
  index_inv st → is_Some (SearchEngine._calculate_idf st term).
Proof.
  intros Hinv. destruct (SearchEngine.all_index st !! term) as [l|] eqn:Hl.
  - rewrite (idf_value _ _ _ Hinv Hl). done.
  - rewrite (idf_absent _ _ Hl). done.
Qed.

(** C2 (amended): [_calculate_idf] looks its argument up as it is given,
    without normalising it; it returns 0.0 when the argument is not a key
    of the inverted index and ln(count / |all_index[term]|) otherwise; on
    a normalised argument it is the idf of the specification; a term that
    is in every document has idf 0.0. *)
Theorem calculate_idf_lookup (dir extension : string)
    (listing : list (string * string)) (term : string) :
  let eng := SearchEngine.init dir extension listing in
  SearchEngine._calculate_idf eng term
    = Some (match SearchEngine.all_index eng !! term with
            | None => 0%R
            | Some l => ln (INR (SearchEngine.count eng) / INR (length l))
            end)
  ∧ SearchEngine._calculate_idf eng (clean term) = Some (Spec.idf eng term)
  ∧ (∀ l, SearchEngine.all_index eng !! term = Some l →
          length l = SearchEngine.count eng →
          SearchEngine._calculate_idf eng term = Some 0%R).
Proof.
  intros eng. pose proof (init_inv dir extension listing) as Hinv. fold eng in Hinv.
  assert (∀ t, SearchEngine._calculate_idf eng t
    = Some (match SearchEngine.all_index eng !! t with
            | None => 0%R
            | Some l => ln (INR (SearchEngine.count eng) / INR (length l))
            end)) as Hidf.
  { intros t. destruct (SearchEngine.all_index eng !! t) as [l|] eqn:Hl.
    - by apply idf_value.
    - by apply idf_absent. }
  split; [apply Hidf|]. split.
  - rewrite Hidf. unfold Spec.idf.
    by destruct (SearchEngine.all_index eng !! clean term).
  - intros l Hl Hlen. rewrite Hidf, Hl, Hlen.
    pose proof (inv_lookup_bounds _ _ _ Hinv Hl) as [Hpos _].
    rewrite Hlen in Hpos. apply lt_INR in Hpos. simpl in Hpos.
    unfold Rdiv. rewrite Rinv_r by lra. by rewrite ln_1.
Qed.

(** In a directory with the single file "dogs dogs", "dogs" is in every
    document. *)
Lemma calculate_idf_lookup_every_document :
  SearchEngine._calculate_idf
    (SearchEngine.init "d" ".txt" [("a.txt", "dogs dogs")]%string) "dogs"
  = Some 0%R.
Proof.
  destruct (calculate_idf_lookup "d" ".txt" [("a.txt", "dogs dogs")]%string "dogs")
    as (_ & _ & Hevery).
  apply (Hevery [0]); by vm_compute.
Defined.

Lemma ln_3_2_pos : (0 < ln (3 / 2))%R.
Proof. rewrite <- ln_1. apply ln_increasing; lra. Qed.

(** C2, as stated, fails on an argument that is not normalised: "Dogs" is
    no key of the index, so its idf is 0.0, while the idf of the normalised
    term "dogs" is ln(3/2). *)
Lemma calculate_idf_not_normalising :
  SearchEngine._calculate_idf doggos_engine "Dogs" = Some 0%R
  ∧ SearchEngine._calculate_idf doggos_engine "Dogs"
    ≠ Some (Spec.idf doggos_engine "Dogs").
Proof.
  assert (SearchEngine._calculate_idf doggos_engine "Dogs" = Some 0%R) as H0.
  { apply idf_absent. by vm_compute. }
  split; [done|]. rewrite H0. unfold Spec.idf.
  replace (SearchEngine.all_index doggos_engine !! clean "Dogs")
    with (Some [0; 2]) by (by vm_compute).
  replace (SearchEngine.count doggos_engine) with 3 by (by vm_compute).
  intros [= Heq]. pose proof ln_3_2_pos as Hpos.
  simpl in Heq. replace (1 + 1 + 1)%R with 3%R in Heq by lra.
  replace (1 + 1)%R with 2%R in Heq by lra. lra.
Qed.

(** C8: in a built engine, of two indexed terms the one listed for fewer
    documents has the strictly larger idf. *)
Theorem idf_strictly_antitone (dir extension : string)
    (listing : list (string * string)) (a b : string) (la lb : list nat) :
  let eng := SearchEngine.init dir extension listing in
  SearchEngine.all_index eng !! a = Some la →
  SearchEngine.all_index eng !! b = Some lb →
  length la < length lb →
  ∃ ia ib, SearchEngine._calculate_idf eng a = Some ia
           ∧ SearchEngine._calculate_idf eng b = Some ib
           ∧ (ia > ib)%R.
Proof.
  intros eng Ha Hb Hlt.
  pose proof (init_inv dir extension listing) as Hinv. fold eng in Hinv.
  pose proof (inv_lookup_bounds _ _ _ Hinv Ha) as [Hapos Hale].
  pose proof (inv_lookup_bounds _ _ _ Hinv Hb) as [Hbpos Hble].
  eexists _, _. split; [by apply idf_value|]. split; [by apply idf_value|].
  assert (0 < INR (length la))%R as Ha' by (apply lt_0_INR; lia).
  assert (INR (length la) < INR (length lb))%R as Hlt' by (by apply lt_INR).
  assert (0 < INR (SearchEngine.count eng))%R as Hn by (apply lt_0_INR; lia).
  apply Rlt_gt, ln_increasing.
  - apply Rdiv_lt_0_compat; lra.
  - unfold Rdiv. apply Rmult_lt_compat_l; [done|].
    apply Rinv_lt_contravar; [|done]. apply Rmult_lt_0_compat; lra.
Qed.

(** On the demo directory "love" (one document) against "dogs" (two). *)
Lemma idf_strictly_antitone_doggos :
  ∃ ia ib, SearchEngine._calculate_idf doggos_engine "love" = Some ia
           ∧ SearchEngine._calculate_idf doggos_engine "dogs" = Some ib
           ∧ (ia > ib)%R.
Proof.
  apply (idf_strictly_antitone "doggos" ".txt" doggos "love" "dogs" [2] [0; 2]).
  - by vm_compute.
  - by vm_compute.
  - simpl. lia.
Defined.

(** ** Sorting *)

Section sorting.
Context {A : Type} (key : A → R).

Lemma insert_desc_perm x l : insert_desc key x l ≡ₚ x :: l.
Proof.
  induction l as [|y l IH]; simpl; [done|].
  destruct (Rle_dec (key y) (key x)); [done|].
  rewrite IH. apply Permutation_swap.
Qed.

Lemma sorted_desc_perm l : sorted_desc key l ≡ₚ l.
Proof.
  induction l as [|x l IH]; simpl; [done|].
  by rewrite insert_desc_perm, IH.
Qed.

Lemma insert_desc_sorted x l :
  StronglySorted (λ a b, key b <= key a)%R l →
  StronglySorted (λ a b, key b <= key a)%R (insert_desc key x l).
Proof.
  induction 1 as [|y l Hl IH Hy]; simpl.
  { repeat constructor. }
  destruct (Rle_dec (key y) (key x)) as [Hle|Hnle].
  - constructor; [by constructor|]. constructor; [done|].
    eapply Forall_impl; [exact Hy|]. intros z Hz. simpl in *. lra.
  - constructor; [done|]. rewrite insert_desc_perm.
    constructor; [|done]. lra.
Qed.

Lemma sorted_desc_sorted l :
  StronglySorted (λ a b, key b <= key a)%R (sorted_desc key l).
Proof.
  induction l as [|x l IH]; simpl; [constructor|].
  by apply insert_desc_sorted.
Qed.

End sorting.

Lemma fold_Rplus_nonneg xs a :
  Forall (λ x, 0 <= x)%R xs → (a <= fold_left Rplus xs a)%R.
Proof.
  intros Hxs. revert a. induction Hxs as [|x xs Hx _ IH]; intros a; simpl.
  - apply Rle_refl.
  - eapply Rle_trans; [|apply IH]. lra.
Qed.

Lemma py_sum_nonneg xs : Forall (λ x, 0 <= x)%R xs → (0 <= py_sum xs)%R.
Proof. apply fold_Rplus_nonneg. Qed.

(** ** Search *)

Lemma elem_of_fold_matching (eng : SearchEngine.t) terms (acc : gset nat) r :
  r ∈ fold_left
        (λ (acc : gset nat) term,
           match SearchEngine.all_index eng !! term with
           | Some l => acc ∪ list_to_set l
           | None => acc
           end) terms acc
  ↔ r ∈ acc ∨ ∃ t l, t ∈ terms ∧ SearchEngine.all_index eng !! t = Some l ∧ r ∈ l.
Proof.
  revert acc. induction terms as [|t terms IH]; intros acc; simpl.
  { split; [by left|]. intros [?|(t & l & Ht & _)]; [done|].
    by apply elem_of_nil in Ht. }
  rewrite IH. clear IH. split.
  - intros [Hacc|(t' & l & Ht' & Hl & Hr)].
    + destruct (SearchEngine.all_index eng !! t) as [l|] eqn:Hl; [|by left].
      apply elem_of_union in Hacc as [?|Hr]; [by left|].
      apply elem_of_list_to_set in Hr. right. exists t, l. by split; [left|].
    + right. exists t', l. by split; [right|].
  - intros [Hacc|(t' & l & Ht' & Hl & Hr)].
    + left. destruct (SearchEngine.all_index eng !! t); [|done].
      apply elem_of_union. by left.
    + apply elem_of_cons in Ht' as [->|Ht'].
      * left. rewrite Hl. apply elem_of_union. right.
        by apply elem_of_list_to_set.
      * right. by exists t', l.
Qed.

Lemma elem_of_matching_docs eng terms r :
  r ∈ SearchEngine.matching_docs eng terms
  ↔ ∃ t l, t ∈ terms ∧ SearchEngine.all_index eng !! t = Some l ∧ r ∈ l.
Proof.
  unfold SearchEngine.matching_docs. rewrite elem_of_fold_matching.
  split; [|by right]. intros [Hr|?]; [|done]. by apply elem_of_empty in Hr.
Qed.

(** Every candidate is a reference to a stored document. *)
Lemma matching_docs_valid eng terms r :
  index_inv eng → r ∈ SearchEngine.matching_docs eng terms →
  ∃ p c, SearchEngine.heap eng !! r = Some (Document.init p c).
Proof.
  intros Hinv (t & l & _ & Hl & Hr)%elem_of_matching_docs.
  destruct (inv_lookup_valid _ _ _ _ Hinv Hl Hr) as (p & c & Hd & _). eauto.
Qed.

Lemma Q2R_nonneg q : (0 <= q)%Q → (0 <= Q2R q)%R.
Proof.
  intros Hq. apply Qle_Rle in Hq.
  replace (Q2R 0) with 0%R in Hq; [done|]. unfold Q2R; simpl. lra.
Qed.

(** The score of a stored document is defined and not negative. *)
Lemma total_score_Some eng terms r p c :
  index_inv eng → SearchEngine.heap eng !! r = Some (Document.init p c) →
  ∃ v, SearchEngine.total_score eng terms r = Some v ∧ (0 <= v)%R.
Proof.
  intros Hinv Hd. unfold SearchEngine.total_score. rewrite Hd. simpl.
  set (f := λ term : string, _).
  assert (is_Some (mapM f terms)) as [xs Hxs].
  { apply mapM_is_Some_2, Forall_forall. intros t _. unfold f, compose.
    destruct (idf_total _ t Hinv) as [i ->]. by eexists. }
  rewrite Hxs. simpl. eexists. split; [done|].
  apply py_sum_nonneg. apply mapM_Some_1 in Hxs.
  clear -Hxs Hinv. induction Hxs as [|t x terms xs Hx _ IH]; constructor; [|done].
  unfold f in Hx.
  destruct (SearchEngine._calculate_idf eng t) as [i|] eqn:Hi; [|done].
  simpl in Hx. injection Hx as <-.
  apply Rmult_le_pos.
  - by eapply idf_nonneg.
  - apply Q2R_nonneg, term_frequency_nonneg.
Qed.

Lemma candidate_score iter eng terms r :
  set_order iter → index_inv eng →
  r ∈ iter (SearchEngine.matching_docs eng terms) →
  SearchEngine.total_score eng terms r = Some (score eng terms r)
  ∧ (0 <= score eng terms r)%R
  ∧ ∃ d, SearchEngine.heap eng !! r = Some d ∧ path_at eng r = Document.get_path d.
Proof.
  intros Hiter Hinv Hr. rewrite (Hiter _) in Hr. apply elem_of_elements in Hr.
  destruct (matching_docs_valid _ _ _ Hinv Hr) as (p & c & Hd).
  destruct (total_score_Some _ terms _ _ _ Hinv Hd) as (v & Hv & Hpos).
  unfold score, path_at. rewrite Hv, Hd. simpl. eauto.
Qed.

Lemma big_list_value iter eng terms :
  set_order iter → index_inv eng →
  SearchEngine.big_list iter eng terms
  = Some ((λ ref, (ref, score eng terms ref))
            <$> iter (SearchEngine.matching_docs eng terms)).
Proof.
  intros Hiter Hinv. unfold SearchEngine.big_list.
  apply mapM_Some_2, Forall2_fmap_r, Forall_Forall2_diag, Forall_forall.
  intros r Hr. unfold compose.
  destruct (candidate_score _ _ _ _ Hiter Hinv Hr) as (-> & _). done.
Qed.

Lemma sorted_docs_value iter eng query :
  set_order iter → index_inv eng →
  SearchEngine.sorted_docs iter eng query = Some (ranked iter eng query).
Proof.
  intros Hiter Hinv. unfold SearchEngine.sorted_docs.
  by rewrite big_list_value.
Qed.

Lemma ranked_perm iter eng query :
  ranked iter eng query ≡ₚ
    (λ ref, (ref, score eng (SearchEngine.query_terms query) ref))
      <$> iter (SearchEngine.matching_docs eng (SearchEngine.query_terms query)).
Proof. apply sorted_desc_perm. Qed.

Lemma ranked_refs iter eng query :
  set_order iter →
  (ranked iter eng query).*1
  ≡ₚ elements (SearchEngine.matching_docs eng (SearchEngine.query_terms query)).
Proof.
  intros Hiter. rewrite ranked_perm, <- list_fmap_compose, <- (Hiter _).
  by rewrite list_fmap_id.
Qed.

Lemma elem_of_ranked iter eng query item :
  item ∈ ranked iter eng query →
  item.1 ∈ iter (SearchEngine.matching_docs eng (SearchEngine.query_terms query))
  ∧ item.2 = score eng (SearchEngine.query_terms query) item.1.
Proof.
  rewrite ranked_perm. intros (r & -> & Hr)%list_elem_of_fmap. done.
Qed.

Lemma search_value iter eng query :
  set_order iter → index_inv eng →
  SearchEngine.search iter eng query
  = Some ((λ item, path_at eng item.1) <$> ranked iter eng query).
Proof.
  intros Hiter Hinv. unfold SearchEngine.search.
  rewrite sorted_docs_value by done. simpl.
  apply mapM_Some_2, Forall2_fmap_r, Forall_Forall2_diag, Forall_forall.
  intros item [Hr _]%elem_of_ranked. unfold compose.
  destruct (candidate_score _ _ _ _ Hiter Hinv Hr) as (_ & _ & d & -> & ->).
  done.
Qed.

(** *** Paths of the stored documents *)

Lemma heap_paths_fold dir extension listing st :
  Document.path <$> SearchEngine.heap
                      (fold_left (SearchEngine.index_file dir extension) listing st)
  = (Document.path <$> SearchEngine.heap st)
    ++ (PyStr.os_path_join dir <$> indexed_names extension listing).
Proof.
  revert st. induction listing as [|entry listing IH]; intros st.
  { simpl. by rewrite app_nil_r. }
  cbn [fold_left]. rewrite IH. clear IH.
  unfold indexed_names. rewrite fmap_cons, filter_cons.
  unfold SearchEngine.index_file.
  destruct (PyStr.endswith entry.1 extension); simpl; [|done].
  by rewrite fmap_app, <- app_assoc.
Qed.

Lemma heap_paths dir extension listing :
  Document.path <$> SearchEngine.heap (SearchEngine.init dir extension listing)
  = PyStr.os_path_join dir <$> indexed_names extension listing.
Proof. unfold SearchEngine.init. by rewrite heap_paths_fold. Qed.

Lemma os_path_join_inj dir a b :
  PyStr.startswith a "/" = false → PyStr.startswith b "/" = false →
  PyStr.os_path_join dir a = PyStr.os_path_join dir b → a = b.
Proof.
  intros Ha Hb. unfold PyStr.os_path_join. rewrite Ha, Hb.
  destruct (negb (PyStr.truthy dir) || PyStr.endswith dir "/"); intros Heq.
  - by apply (inj (String.app dir)) in Heq.
  - apply (inj (String.app dir)) in Heq. by apply (inj (String.app "/")) in Heq.
Qed.

Lemma listing_paths_NoDup dir listing :
  listdir_ok listing → NoDup (PyStr.os_path_join dir <$> listing.*1).
Proof.
  intros [Hnd Hslash]. apply NoDup_fmap_2_strong; [|done].
  rewrite Forall_forall in Hslash.
  intros a b Ha Hb. apply os_path_join_inj; auto.
Qed.

Lemma indexed_paths_NoDup dir extension listing :
  listdir_ok listing →
  NoDup (PyStr.os_path_join dir <$> indexed_names extension listing).
Proof.
  intros Hok. apply (listing_paths_NoDup dir) in Hok.
  eapply sublist_NoDup; [exact Hok|]. apply fmap_sublist, sublist_filter.
Qed.

(** Exactly one element of a list without repeated images has the image
    of a given element. *)
Lemma filter_unique_image {A B} `{EqDecision B} (f : A → B) l x :
  NoDup (f <$> l) → x ∈ l → length (filter (λ y, f y = f x) l) = 1.
Proof.
  induction l as [|a l IH]; [by intros _ ?%elem_of_nil|].
  rewrite fmap_cons, NoDup_cons, filter_cons. intros [Ha Hnd] Hx.
  destruct (decide (f a = f x)) as [Heq|Hne].
  - simpl. f_equal.
    destruct (filter (λ y, f y = f x) l) as [|y k] eqn:Hk; [done|].
    assert (y ∈ filter (λ y, f y = f x) l) as Hy by (rewrite Hk; by left).
    apply list_elem_of_filter in Hy as [Hfy Hy].
    destruct Ha. rewrite Heq, <- Hfy. by apply list_elem_of_fmap_2.
  - apply IH; [done|]. apply elem_of_cons in Hx as [->|]; done.
Qed.

Lemma path_at_elem dir extension listing r d :
  SearchEngine.heap (SearchEngine.init dir extension listing) !! r = Some d →
  ∃ entry, entry ∈ listing ∧ PyStr.endswith entry.1 extension = true
           ∧ Document.get_path d = PyStr.os_path_join dir entry.1.
Proof.
  intros Hd.
  assert (Document.path d ∈ PyStr.os_path_join dir <$> indexed_names extension listing)
    as Hin.
  { rewrite <- heap_paths. apply list_elem_of_fmap_2.
    by eapply list_elem_of_lookup_2. }
  apply list_elem_of_fmap in Hin as (name & Hp & Hname).
  unfold indexed_names in Hname. apply list_elem_of_filter in Hname as [Hext Hname].
  apply list_elem_of_fmap in Hname as (entry & -> & Hentry).
  exists entry. split; [done|]. split; [by apply Is_true_eq_true|done].
Qed.

(** C5: the sequence [search] returns is ordered by non-increasing tf-idf
    score; no document and no path occurs in it twice, whatever number of
    query terms match a document; and every path in it is the path of
    exactly one file of the directory listing the engine was built from. *)
Theorem search_sorted_without_duplicates (iter : gset nat → list nat)
    (dir extension : string) (listing : list (string * string)) (query : string) :
  set_order iter → listdir_ok listing →
  let eng := SearchEngine.init dir extension listing in
  ∃ items res,
    SearchEngine.sorted_docs iter eng query = Some items
    ∧ SearchEngine.search iter eng query = Some res
    ∧ Forall2 (λ item p,
         ∃ d, SearchEngine.heap eng !! item.1 = Some d
              ∧ p = Document.get_path d
              ∧ SearchEngine.total_score eng (SearchEngine.query_terms query) item.1
                = Some item.2) items res
    ∧ StronglySorted desc items
    ∧ NoDup items.*1
    ∧ NoDup res
    ∧ ∀ p, p ∈ res →
        length (filter (λ entry, PyStr.os_path_join dir entry.1 = p) listing) = 1.
Proof.
  intros Hiter Hok eng.
  pose proof (init_inv dir extension listing) as Hinv. fold eng in Hinv.
  exists (ranked iter eng query), ((λ item, path_at eng item.1) <$> ranked iter eng query).
  split; [by apply sorted_docs_value|]. split; [by apply search_value|].
  assert (∀ item, item ∈ ranked iter eng query →
            ∃ d, SearchEngine.heap eng !! item.1 = Some d
                 ∧ path_at eng item.1 = Document.get_path d
                 ∧ SearchEngine.total_score eng (SearchEngine.query_terms query) item.1
                   = Some item.2) as Hitem.
  { intros item [Hr Hs]%elem_of_ranked.
    destruct (candidate_score _ _ _ _ Hiter Hinv Hr) as (Hv & _ & d & Hd & Hp).
    exists d. by rewrite Hs. }
  assert (NoDup (ranked iter eng query).*1) as Hrefs.
  { rewrite ranked_refs by done. apply NoDup_elements. }
  split; [|split; [|split; [done|split]]].
  - apply Forall2_fmap_r, Forall_Forall2_diag, Forall_forall.
    intros item Hin. unfold compose. destruct (Hitem _ Hin) as (d & ? & ? & ?). eauto.
  - apply (sorted_desc_sorted snd).
  - apply NoDup_fmap_2_strong; [|by eapply NoDup_fmap_1].
    intros i1 i2 Hi1 Hi2 Hp.
    destruct (Hitem _ Hi1) as (d1 & Hd1 & Hp1 & _).
    destruct (Hitem _ Hi2) as (d2 & Hd2 & Hp2 & _).
    assert (i1.1 = i2.1) as Href.
    { eapply (NoDup_lookup (Document.path <$> SearchEngine.heap eng)).
      + unfold eng. rewrite heap_paths. by apply indexed_paths_NoDup.
      + rewrite list_lookup_fmap, Hd1. done.
      + rewrite list_lookup_fmap, Hd2. simpl. f_equal.
        unfold Document.get_path in *. congruence. }
    apply elem_of_ranked in Hi1 as [_ Hs1]. apply elem_of_ranked in Hi2 as [_ Hs2].
    destruct i1, i2; simpl in *; congruence.
  - intros p (item & -> & Hin)%list_elem_of_fmap.
    destruct (Hitem _ Hin) as (d & Hd & -> & _).
    destruct (path_at_elem _ _ _ _ _ Hd) as (entry & Hentry & _ & ->).
    apply (filter_unique_image (λ entry, PyStr.os_path_join dir entry.1)); [|done].
    apply (listing_paths_NoDup dir) in Hok.
    by rewrite <- list_fmap_compose in Hok.
Qed.

(** On the demo directory, iterating sets in the order of [elements]. *)
Lemma search_sorted_without_duplicates_doggos :
  ∃ items res,
    SearchEngine.sorted_docs elements doggos_engine "love dogs" = Some items
    ∧ SearchEngine.search elements doggos_engine "love dogs" = Some res
    ∧ StronglySorted desc items ∧ NoDup res.
Proof.
  destruct (search_sorted_without_duplicates elements "doggos" ".txt" doggos
              "love dogs")
    as (items & res & Hitems & Hres & _ & Hsorted & _ & Hnd & _).
  - elements_order.
  - listdir_ok_by_evaluation.
  - exists items, res. exact (conj Hitems (conj Hres (conj Hsorted Hnd))).
Defined.

(** *** Queries without candidates *)

Lemma set_order_empty iter : set_order iter → iter ∅ = [].
Proof.
  intros Hiter. apply Permutation_nil_r. by rewrite (Hiter ∅), elements_empty.
Qed.

Lemma matching_docs_unmatched eng terms :
  (∀ term, term ∈ terms → SearchEngine.all_index eng !! term = None) →
  SearchEngine.matching_docs eng terms = ∅.
Proof.
  intros Hnone. apply set_eq. intros r.
  rewrite elem_of_matching_docs. split; [|by intros ?%elem_of_empty].
  intros (t & l & Ht & Hl & _). rewrite (Hnone _ Ht) in Hl. done.
Qed.

Lemma search_unmatched iter eng query :
  set_order iter → index_inv eng →
  (∀ term, term ∈ SearchEngine.query_terms query →
           SearchEngine.all_index eng !! term = None) →
  SearchEngine.search iter eng query = Some [].
Proof.
  intros Hiter Hinv Hnone. rewrite search_value by done.
  unfold ranked. rewrite (matching_docs_unmatched _ _ Hnone).
  by rewrite set_order_empty.
Qed.

(** C6: [search] never raises.  On every built engine every query has a
    result; a query without tokens, a query none of whose terms is
    indexed, and any query on the engine of an empty directory have the
    empty result; and on the engine of an empty directory the idf of every
    term is 0.0. *)
Theorem search_never_raises (iter : gset nat → list nat)
    (dir extension : string) (listing : list (string * string))
    (query term : string) :
  set_order iter →
  let eng := SearchEngine.init dir extension listing in
  let empty := SearchEngine.init dir extension [] in
  is_Some (SearchEngine.search iter eng query)
  ∧ (PyStr.split query = [] → SearchEngine.search iter eng query = Some [])
  ∧ ((∀ t, t ∈ SearchEngine.query_terms query →
           SearchEngine.all_index eng !! t = None) →
     SearchEngine.search iter eng query = Some [])
  ∧ SearchEngine.search iter empty query = Some []
  ∧ SearchEngine._calculate_idf empty term = Some 0%R.
Proof.
  intros Hiter eng empty.
  pose proof (init_inv dir extension listing) as Hinv. fold eng in Hinv.
  pose proof (init_inv dir extension []) as Hinv0. fold empty in Hinv0.
  split; [by rewrite search_value|].
  split; [|split; [|split]].
  - intros Hsplit. apply search_unmatched; [done..|].
    unfold SearchEngine.query_terms. rewrite Hsplit. by intros t ?%elem_of_nil.
  - by apply search_unmatched.
  - apply search_unmatched; [done..|]. intros t _. apply lookup_empty.
  - apply idf_absent, lookup_empty.
Qed.

(** On the demo directory: the empty query, a query of blanks, and a query
    for a word no document has. *)
Lemma search_never_raises_doggos :
  SearchEngine.search elements doggos_engine "   " = Some []
  ∧ SearchEngine.search elements doggos_engine "horses" = Some []
  ∧ SearchEngine.search elements doggos_engine EmptyString = Some [].
Proof.
  split; [|split].
  - destruct (search_never_raises elements "doggos" ".txt" doggos "   " "x")
      as (_ & Hblank & _); [elements_order|].
    apply Hblank. by vm_compute.
  - destruct (search_never_raises elements "doggos" ".txt" doggos "horses" "x")
      as (_ & _ & Hnone & _); [elements_order|].
    apply Hnone. intros t Ht.
    replace (SearchEngine.query_terms "horses") with ["horses"%string] in Ht
      by (by vm_compute).
    apply list_elem_of_singleton in Ht as ->. by vm_compute.
  - destruct (search_never_raises elements "doggos" ".txt" doggos EmptyString "x")
      as (_ & Hblank & _); [elements_order|].
    apply Hblank. by vm_compute.
Defined.

(** C10: in a built engine every entry of the inverted index is a
    non-empty list of at most [count] documents; hence the quotient and
    the logarithm of [_calculate_idf] are defined for every term and the
    idf is not negative; and every score [search] computes is defined and
    not negative. *)
Theorem idf_and_scores_nonnegative (iter : gset nat → list nat)
    (dir extension : string) (listing : list (string * string)) :
  set_order iter →
  let eng := SearchEngine.init dir extension listing in
  (∀ term l, SearchEngine.all_index eng !! term = Some l →
             0 < length l ≤ SearchEngine.count eng)
  ∧ (∀ term, ∃ v, SearchEngine._calculate_idf eng term = Some v ∧ (0 <= v)%R)
  ∧ (∀ query, ∃ items,
        SearchEngine.sorted_docs iter eng query = Some items
        ∧ Forall (λ item,
             SearchEngine.total_score eng (SearchEngine.query_terms query) item.1
             = Some item.2 ∧ (0 <= item.2)%R) items).
Proof.
  intros Hiter eng.
  pose proof (init_inv dir extension listing) as Hinv. fold eng in Hinv.
  split; [|split].
  - intros term l Hl. by apply (inv_lookup_bounds eng term).
  - intros term. destruct (idf_total _ term Hinv) as [v Hv].
    exists v. split; [done|]. by eapply idf_nonneg.
  - intros query. exists (ranked iter eng query).
    split; [by apply sorted_docs_value|].
    apply Forall_forall. intros item [Hr Hs]%elem_of_ranked.
    destruct (candidate_score _ _ _ _ Hiter Hinv Hr) as (Hv & Hpos & _).
    rewrite Hs. done.
Qed.

(** On the demo directory. *)
Lemma idf_and_scores_nonnegative_doggos :
  ∃ v, SearchEngine._calculate_idf doggos_engine "dogs" = Some v ∧ (0 <= v)%R.
Proof.
  destruct (idf_and_scores_nonnegative elements "doggos" ".txt" doggos)
    as (_ & Hidf & _); [elements_order|].
  apply Hidf.
Defined.

(** ** Evaluating a search *)

Lemma idf_value_of_eq eng term :
  index_inv eng →
  SearchEngine._calculate_idf eng term = Some (idf_value_of eng term).
Proof.
  intros Hinv. unfold idf_value_of.
  destruct (SearchEngine.all_index eng !! term) as [l|] eqn:Hl.
  - by apply idf_value.
  - by apply idf_absent.
Qed.

Lemma score_eval eng terms r :
  index_inv eng → is_Some (SearchEngine.heap eng !! r) →
  score eng terms r
  = py_sum ((λ t, idf_value_of eng t * Q2R (tf_at eng r t))%R <$> terms).
Proof.
  intros Hinv [d Hd]. unfold score, SearchEngine.total_score, tf_at.
  rewrite Hd. simpl.
  erewrite mapM_Some_2; [done|].
  apply Forall2_fmap_r, Forall_Forall2_diag, Forall_forall. intros t _.
  unfold compose. by rewrite idf_value_of_eq.
Qed.

Lemma permutation_pair {A} (l : list A) a b :
  l ≡ₚ [a; b] → l = [a; b] ∨ l = [b; a].
Proof. intros Hp. symmetry in Hp. by apply Permutation_length_2_inv in Hp. Qed.

Lemma permutation_triple {A} (l : list A) a b c :
  l ≡ₚ [a; b; c] →
  l = [a; b; c] ∨ l = [a; c; b] ∨ l = [b; a; c]
  ∨ l = [b; c; a] ∨ l = [c; a; b] ∨ l = [c; b; a].
Proof.
  intros Hp. symmetry in Hp.
  apply Permutation_cons_inv_l in Hp as (k1 & k2 & -> & Hp).
  symmetry in Hp. apply permutation_pair in Hp.
  destruct k1 as [|x [|y [|z k1]]]; simpl in Hp;
    destruct Hp as [Hp|Hp]; simplify_eq; simpl; tauto.
Qed.

(** Replace a closed term of the goal by its value. *)
Ltac evaluate t :=
  let v := eval vm_compute in t in
  replace t with v by (vm_compute; reflexivity).

(** The ranking of "love dogs" on the engine [eng] of a concrete listing of
    the demo files, where [r3] and [r1] are the references of doc3 and
    doc1. *)
Ltac rank_love_dogs iter eng r3 r1 Hiter :=
  let Hinv := fresh "Hinv" in
  let Hlt := fresh "Hlt" in
  let Hranked := fresh "Hranked" in
  assert (index_inv eng) as Hinv by apply init_inv;
  pose (terms := ["love"; "dogs"]%string);
  assert (score eng terms r1 < score eng terms r3)%R as Hlt;
  [ rewrite (score_eval eng terms r3), (score_eval eng terms r1)
      by first [exact Hinv | apply (bool_decide_unpack _); vm_compute; exact I];
    unfold terms, py_sum, idf_value_of; cbn [fmap list_fmap fold_left];
    evaluate (SearchEngine.all_index eng !! "love");
    evaluate (SearchEngine.all_index eng !! "dogs");
    evaluate (SearchEngine.count eng);
    evaluate (tf_at eng r3 "love"); evaluate (tf_at eng r3 "dogs");
    evaluate (tf_at eng r1 "love"); evaluate (tf_at eng r1 "dogs");
    cbn [length]; replace (INR 3 / INR 1)%R with 3%R by (simpl; lra);
    replace (INR 3 / INR 2)%R with (3 / 2)%R by (simpl; lra);
    unfold Q2R; cbn [Qnum Qden];
    pose proof ln_3_2_pos;
    assert (0 < ln 3)%R by (rewrite <- ln_1; apply ln_increasing; lra);
    lra
  | assert (ranked iter eng "love dogs"
            = [(r3, score eng terms r3); (r1, score eng terms r1)]) as Hranked;
    [ unfold ranked;
      replace (SearchEngine.query_terms "love dogs") with terms
        by (vm_compute; reflexivity);
      let Hp := fresh "Hp" in
      assert (iter (SearchEngine.matching_docs eng terms) ≡ₚ [r3; r1]) as Hp
        by (rewrite (Hiter _);
            evaluate (elements (SearchEngine.matching_docs eng terms));
            first [reflexivity | apply Permutation_swap]);
      apply permutation_pair in Hp as [-> | ->];
      cbn [fmap list_fmap sorted_desc insert_desc snd];
      repeat (destruct (Rle_dec _ _)); first [reflexivity | lra]
    | exists r3, r1, (score eng terms r3), (score eng terms r1);
      split; [by rewrite sorted_docs_value, Hranked|];
      split; [exact Hlt|];
      rewrite search_value, Hranked by done; cbn [fmap list_fmap fst];
      evaluate (path_at eng r3); evaluate (path_at eng r1); reflexivity ] ].

(** C1: on an engine built from the demo directory (doc1 = "dogs are the
    greatest pets", doc2 = "cats seem pretty okay", doc3 = "i love dogs"),
    whatever the order in which the directory lists the three files and
    the order in which sets are iterated, [search("love dogs")] returns
    doc3 and doc1 and not doc2, doc3 first, with a strictly greater
    score. *)
Theorem search_love_dogs (iter : gset nat → list nat)
    (listing : list (string * string)) :
  set_order iter → listing ≡ₚ doggos →
  let eng := SearchEngine.init "doggos" ".txt" listing in
  ∃ (r3 r1 : nat) (s3 s1 : R),
    SearchEngine.sorted_docs iter eng "love dogs" = Some [(r3, s3); (r1, s1)]
    ∧ (s1 < s3)%R
    ∧ SearchEngine.search iter eng "love dogs"
      = Some ["doggos/doc3.txt"; "doggos/doc1.txt"]%string.
Proof.
  intros Hiter Hp eng. unfold doggos in Hp.
  apply permutation_triple in Hp as [-> | [-> | [-> | [-> | [-> | ->]]]]].
  - rank_love_dogs iter eng 2 0 Hiter.
  - rank_love_dogs iter eng 1 0 Hiter.
  - rank_love_dogs iter eng 2 1 Hiter.
  - rank_love_dogs iter eng 1 2 Hiter.
  - rank_love_dogs iter eng 0 1 Hiter.
  - rank_love_dogs iter eng 0 2 Hiter.
Qed.

(** The listing in the order doc1, doc2, doc3, with sets iterated in the
    order of [elements]. *)
Lemma search_love_dogs_elements :
  ∃ (r3 r1 : nat) (s3 s1 : R),
    SearchEngine.sorted_docs elements doggos_engine "love dogs"
      = Some [(r3, s3); (r1, s1)]
    ∧ (s1 < s3)%R
    ∧ SearchEngine.search elements doggos_engine "love dogs"
      = Some ["doggos/doc3.txt"; "doggos/doc1.txt"]%string.
Proof.
  apply (search_love_dogs elements doggos); [elements_order|reflexivity].
Defined.

(** ** Two runs *)

Lemma NoDup_fmap_elem_inj {A B} (f : A → B) l x y :
  NoDup (f <$> l) → x ∈ l → y ∈ l → f x = f y → x = y.
Proof.
  induction l as [|a l IH]; [by intros _ ?%elem_of_nil|].
  rewrite fmap_cons, NoDup_cons. intros [Ha Hnd] Hx Hy Hf.
  apply elem_of_cons in Hx as [->|Hx]; apply elem_of_cons in Hy as [->|Hy].
  - done.
  - destruct Ha. rewrite Hf. by apply list_elem_of_fmap_2.
  - destruct Ha. rewrite <- Hf. by apply list_elem_of_fmap_2.
  - by apply IH.
Qed.

Lemma ranked_order_perm iter1 iter2 eng query :
  set_order iter1 → set_order iter2 →
  ranked iter1 eng query ≡ₚ ranked iter2 eng query.
Proof.
  intros H1 H2. rewrite !ranked_perm. by rewrite (H1 _), (H2 _).
Qed.

Lemma ranked_sorted iter eng query : StronglySorted desc (ranked iter eng query).
Proof. apply (sorted_desc_sorted snd). Qed.

(** The sequence of scores does not depend on the iteration order. *)
Lemma ranked_scores iter1 iter2 eng query :
  set_order iter1 → set_order iter2 →
  (ranked iter1 eng query).*2 = (ranked iter2 eng query).*2.
Proof.
  intros H1 H2.
  apply (StronglySorted_unique_strong (λ a b : R, b <= a)%R).
  - intros x1 x2 _ _ Ha Hb. by apply Rle_antisym.
  - eapply StronglySorted_fmap; [|apply ranked_sorted]. done.
  - eapply StronglySorted_fmap; [|apply ranked_sorted]. done.
  - by rewrite (ranked_order_perm iter1 iter2).
Qed.

(** Without ties the ranking does not depend on the iteration order. *)
Lemma ranked_without_ties iter1 iter2 eng query :
  set_order iter1 → set_order iter2 →
  NoDup (ranked iter1 eng query).*2 →
  ranked iter1 eng query = ranked iter2 eng query.
Proof.
  intros H1 H2 Hnd.
  apply (StronglySorted_unique_strong desc);
    [|apply ranked_sorted..|by apply ranked_order_perm].
  intros x1 x2 Hx1 Hx2 Ha Hb. unfold desc in *.
  rewrite <- (ranked_order_perm iter1 iter2) in Hx2 by done.
  apply (NoDup_fmap_elem_inj snd (ranked iter1 eng query)); [done..|].
  by apply Rle_antisym.
Qed.

(** C9: two engines built from the same directory listing answer the same
    query with the same sequence of scores and the same documents, and
    with the same sequence of paths whenever no two candidates have equal
    scores or the two runs iterate the candidate set in the same order;
    the order among candidates of equal score is the only difference. *)
Theorem search_deterministic_up_to_ties (iter1 iter2 : gset nat → list nat)
    (dir extension : string) (listing : list (string * string)) (query : string) :
  set_order iter1 → set_order iter2 →
  let eng1 := SearchEngine.init dir extension listing in
  let eng2 := SearchEngine.init dir extension listing in
  ∃ items1 items2 res1 res2,
    SearchEngine.sorted_docs iter1 eng1 query = Some items1
    ∧ SearchEngine.sorted_docs iter2 eng2 query = Some items2
    ∧ SearchEngine.search iter1 eng1 query = Some res1
    ∧ SearchEngine.search iter2 eng2 query = Some res2
    ∧ items1.*2 = items2.*2
    ∧ items1 ≡ₚ items2
    ∧ res1 ≡ₚ res2
    ∧ (NoDup items1.*2 → res1 = res2)
    ∧ (iter1 (SearchEngine.matching_docs eng1 (SearchEngine.query_terms query))
       = iter2 (SearchEngine.matching_docs eng2 (SearchEngine.query_terms query)) →
       res1 = res2).
Proof.
  intros H1 H2 eng1 eng2.
  pose proof (init_inv dir extension listing) as Hinv. fold eng1 in Hinv.
  exists (ranked iter1 eng1 query), (ranked iter2 eng2 query),
    ((λ item, path_at eng1 item.1) <$> ranked iter1 eng1 query),
    ((λ item, path_at eng2 item.1) <$> ranked iter2 eng2 query).
  split; [by apply sorted_docs_value|]. split; [by apply sorted_docs_value|].
  split; [by apply search_value|]. split; [by apply search_value|].
  split; [by apply ranked_scores|]. split; [by apply ranked_order_perm|].
  split; [|split].
  - unfold eng2. fold eng1. by rewrite (ranked_order_perm iter1 iter2).
  - intros Hnd. unfold eng2. fold eng1.
    by rewrite (ranked_without_ties iter1 iter2).
  - intros Heq. unfold eng2 in *. fold eng1 in Heq |- *.
    unfold ranked. by rewrite Heq.
Qed.

(** On the demo directory, one run iterating sets in the order of
    [elements] and the other in the reverse order. *)
Lemma search_deterministic_up_to_ties_doggos :
  ∃ res1 res2,
    SearchEngine.search elements doggos_engine "love dogs" = Some res1
    ∧ SearchEngine.search (reverse ∘ elements) doggos_engine "love dogs" = Some res2
    ∧ res1 ≡ₚ res2.
Proof.
  destruct (search_deterministic_up_to_ties elements (reverse ∘ elements)
              "doggos" ".txt" doggos "love dogs")
    as (items1 & items2 & res1 & res2 & _ & _ & Hres1 & Hres2 & _ & _ & Hp & _).
  - elements_order.
  - intros s. apply reverse_Permutation.
  - exists res1, res2. exact (conj Hres1 (conj Hres2 Hp)).
Defined.

(** Candidates of equal score do come out in the order of iteration: in a
    directory of two files with the same text the two scores are equal, and
    two iteration orders give two different results. *)
Lemma search_tie_follows_iteration :
  SearchEngine.search elements twins_engine "x"
  = Some ((λ r, path_at twins_engine r) <$> elements ({[0; 1]} : gset nat))
  ∧ SearchEngine.search (reverse ∘ elements) twins_engine "x"
    = Some ((λ r, path_at twins_engine r) <$> reverse (elements ({[0; 1]} : gset nat)))
  ∧ (λ r, path_at twins_engine r) <$> elements ({[0; 1]} : gset nat)
    ≠ (λ r, path_at twins_engine r) <$> reverse (elements ({[0; 1]} : gset nat)).
Proof.
  pose proof (init_inv "t" ".txt" twins) as Hinv. fold twins_engine in Hinv.
  set (terms := ["x"%string]).
  assert (score twins_engine terms 0 = score twins_engine terms 1) as Htie.
  { assert (is_Some (SearchEngine.heap twins_engine !! 0)) as H0
      by (apply (bool_decide_unpack _); vm_compute; exact I).
    assert (is_Some (SearchEngine.heap twins_engine !! 1)) as H1
      by (apply (bool_decide_unpack _); vm_compute; exact I).
    rewrite (score_eval _ _ _ Hinv H0), (score_eval _ _ _ Hinv H1).
    unfold terms. cbn [fmap list_fmap].
    replace (tf_at twins_engine 0 "x") with (tf_at twins_engine 1 "x")
      by (by vm_compute).
    done. }
  assert (∀ iter, set_order iter →
            iter (SearchEngine.matching_docs twins_engine terms) = [0; 1]
            ∨ iter (SearchEngine.matching_docs twins_engine terms) = [1; 0]) as Hcases.
  { intros iter Hiter. apply permutation_pair. rewrite (Hiter _).
    replace (elements (SearchEngine.matching_docs twins_engine terms))
      with [1; 0] by (by vm_compute).
    apply Permutation_swap. }
  assert (∀ iter, set_order iter →
            SearchEngine.search iter twins_engine "x"
            = Some ((λ r, path_at twins_engine r)
                      <$> iter (SearchEngine.matching_docs twins_engine terms)))
    as Hsearch.
  { intros iter Hiter. rewrite search_value by done. unfold ranked.
    replace (SearchEngine.query_terms "x") with terms by (by vm_compute).
    destruct (Hcases iter Hiter) as [-> | ->];
      cbn [fmap list_fmap sorted_desc insert_desc snd fst];
      rewrite Htie; destruct (Rle_dec _ _) as [_|Hn]; try done;
      destruct Hn; apply Rle_refl. }
  assert (SearchEngine.matching_docs twins_engine terms = {[0; 1]}) as Hset
    by (by vm_compute).
  split; [|split].
  - rewrite Hsearch by elements_order. by rewrite Hset.
  - rewrite Hsearch by (intros s; apply reverse_Permutation).
    unfold compose. by rewrite Hset.
  - by vm_compute.
Qed.

(** * Further properties *)

(** ** Strings *)

Lemma keep_all_word p s :
  PyStr.has (λ c, negb (p c)) (PyStr.keep p s) = false.
Proof.
  induction s as [|c s IH]; cbn [PyStr.keep PyStr.has]; [done|].
  destruct (p c) eqn:E; cbn [PyStr.has]; [|done]. by rewrite E, IH.
Qed.

(** [clean] is idempotent, and a cleaned token has only word characters
    and is its own lowercase form. *)
Theorem clean_normal_form (token : string) :
  clean (clean token) = clean token
  ∧ PyStr.has (λ c, negb (PyStr.is_word c)) (clean token) = false
  ∧ PyStr.lower (clean token) = clean token.
Proof.
  split; [apply clean_idemp|]. rewrite clean_keep. split.
  - apply keep_all_word.
  - apply lower_keep_word.
Qed.

Lemma string_of_list_ascii_app l1 l2 :
  string_of_list_ascii (l1 ++ l2)
  = string_of_list_ascii l1 +:+ string_of_list_ascii l2.
Proof. induction l1 as [|c l1 IH]; [done|]. cbn. by rewrite IH. Qed.

Lemma list_ascii_of_string_app s1 s2 :
  list_ascii_of_string (s1 +:+ s2)
  = list_ascii_of_string s1 ++ list_ascii_of_string s2.
Proof.
  induction s1 as [|c s1 IH]; [done|].
  change (String c s1 +:+ s2) with (String c (s1 +:+ s2)). cbn. by rewrite IH.
Qed.

Lemma rev_string_app s1 s2 :
  PyStr.rev_string (s1 +:+ s2) = PyStr.rev_string s2 +:+ PyStr.rev_string s1.
Proof.
  unfold PyStr.rev_string.
  by rewrite list_ascii_of_string_app, rev_app_distr, string_of_list_ascii_app.
Qed.

Lemma rev_string_involutive s : PyStr.rev_string (PyStr.rev_string s) = s.
Proof.
  unfold PyStr.rev_string.
  by rewrite list_ascii_of_string_of_list_ascii, rev_involutive,
    string_of_list_ascii_of_string.
Qed.

Lemma startswith_iff s p :
  PyStr.startswith s p = true ↔ ∃ rest, s = p +:+ rest.
Proof.
  revert s. induction p as [|a p IH]; intros s; cbn.
  { split; [intros _; by exists s|intros _; by destruct s]. }
  destruct s as [|b s].
  { split; [done|]. by intros [rest ?]. }
  cbn [PyStr.startswith]. rewrite andb_true_iff, IH. split.
  - intros [Hab [rest ->]]. apply Ascii.eqb_eq in Hab as ->. by exists rest.
  - intros [rest [= -> ->]]. split; [apply Ascii.eqb_refl|]. by exists rest.
Qed.

Lemma endswith_iff s p :
  PyStr.endswith s p = true ↔ ∃ front, s = front +:+ p.
Proof.
  unfold PyStr.endswith. rewrite startswith_iff. split.
  - intros [rest Hrest]. exists (PyStr.rev_string rest).
    rewrite <- (rev_string_involutive s), Hrest, rev_string_app.
    by rewrite rev_string_involutive.
  - intros [front ->]. exists (PyStr.rev_string front). apply rev_string_app.
Qed.

Lemma string_app_nil_r s : s +:+ EmptyString = s.
Proof.
  induction s as [|c s IH]; [done|].
  change (String c s +:+ EmptyString) with (String c (s +:+ EmptyString)).
  by rewrite IH.
Qed.

Lemma string_app_assoc s1 s2 s3 : (s1 +:+ s2) +:+ s3 = s1 +:+ (s2 +:+ s3).
Proof.
  induction s1 as [|c s1 IH]; [done|].
  change (String c ((s1 +:+ s2) +:+ s3) = String c (s1 +:+ (s2 +:+ s3))).
  by rewrite IH.
Qed.

Lemma contains_app front p rest : contains (front +:+ p +:+ rest) p = true.
Proof.
  induction front as [|c front IH]; cbn.
  - destruct (p +:+ rest) eqn:E; apply orb_true_iff; left;
      apply startswith_iff; by exists rest.
  - apply orb_true_iff. by right.
Qed.

Lemma has_string_of_list_ascii p l :
  PyStr.has p (string_of_list_ascii l) = existsb p l.
Proof. induction l as [|c l IH]; [done|]. cbn. by rewrite IH. Qed.

Lemma truthy_string_of_list_ascii l :
  PyStr.truthy (string_of_list_ascii l) = match l with [] => false | _ => true end.
Proof. by destruct l. Qed.

Lemma existsb_rev {A} (p : A → bool) l : existsb p (rev l) = existsb p l.
Proof.
  induction l as [|a l IH]; [done|]. cbn [rev existsb].
  rewrite existsb_app, IH. cbn. by rewrite orb_false_r, orb_comm.
Qed.

Lemma split_aux_token cur :
  cur ≠ [] → existsb PyStr.isspace cur = false →
  token_ok (string_of_list_ascii (rev cur)).
Proof.
  intros Hne Hsp. split.
  - rewrite truthy_string_of_list_ascii.
    destruct (rev cur) eqn:E; [|done].
    apply (f_equal (@rev _)) in E. rewrite rev_involutive in E. done.
  - rewrite has_string_of_list_ascii, existsb_rev. done.
Qed.

Lemma split_aux_tokens cur s :
  existsb PyStr.isspace cur = false → Forall token_ok (PyStr.split_aux cur s).
Proof.
  revert cur. induction s as [|c s IH]; intros cur Hcur; cbn [PyStr.split_aux].
  - destruct cur as [|a cur]; [constructor|].
    constructor; [|constructor]. by apply split_aux_token.
  - destruct (PyStr.isspace c) eqn:Hc.
    + destruct cur as [|a cur]; [by apply IH|].
      constructor; [by apply split_aux_token|by apply IH].
    + apply IH. cbn. by rewrite Hc.
Qed.

Lemma split_aux_word cur w rest :
  PyStr.has PyStr.isspace w = false →
  PyStr.split_aux cur (w +:+ rest)
  = PyStr.split_aux (rev (list_ascii_of_string w) ++ cur) rest.
Proof.
  revert cur. induction w as [|c w IH]; intros cur Hw; [done|].
  cbn [PyStr.has] in Hw. apply orb_false_iff in Hw as [Hc Hw].
  change (String c w +:+ rest) with (String c (w +:+ rest)).
  cbn [PyStr.split_aux list_ascii_of_string rev]. rewrite Hc, IH by done.
  by rewrite <- app_assoc.
Qed.

Lemma split_aux_last w :
  token_ok w → PyStr.split_aux [] w = [w].
Proof.
  intros [Hne Hsp]. rewrite <- (string_app_nil_r w) at 1.
  rewrite split_aux_word by done. rewrite app_nil_r. cbn [PyStr.split_aux].
  rewrite rev_involutive, string_of_list_ascii_of_string.
  destruct w as [|c w]; [done|]. cbn [list_ascii_of_string rev].
  by destruct (rev (list_ascii_of_string w) ++ [c]) eqn:E;
    [apply app_eq_nil in E as [_ ?]|].
Qed.

Lemma split_join_blank ws :
  Forall token_ok ws → PyStr.split (join_blank ws) = ws.
Proof.
  unfold PyStr.split. induction 1 as [|w ws Hw Hws IH]; [done|].
  cbn [join_blank]. destruct ws as [|w' ws]; [by apply split_aux_last|].
  destruct Hw as [Hne Hsp]. rewrite split_aux_word by done.
  rewrite app_nil_r.
  change (" " +:+ join_blank (w' :: ws))
    with (String " " (join_blank (w' :: ws))).
  cbn [PyStr.split_aux].
  replace (PyStr.isspace " ") with true by (by vm_compute).
  rewrite rev_involutive, string_of_list_ascii_of_string, IH.
  destruct w as [|c w]; [done|]. cbn [list_ascii_of_string rev].
  by destruct (rev (list_ascii_of_string w) ++ [c]) eqn:E;
    [apply app_eq_nil in E as [_ ?]|].
Qed.

(** [split]: every token is non-empty and free of whitespace, and the
    words of a text that joins non-empty whitespace-free words by single
    blanks are these words. *)
Theorem split_tokens (s : string) (ws : list string) :
  Forall (λ w, PyStr.truthy w = true ∧ PyStr.has PyStr.isspace w = false)
    (PyStr.split s)
  ∧ (Forall (λ w, PyStr.truthy w = true ∧ PyStr.has PyStr.isspace w = false) ws →
     PyStr.split (join_blank ws) = ws).
Proof.
  split; [by apply split_aux_tokens|apply split_join_blank].
Qed.

Lemma split_tokens_love_dogs :
  PyStr.split (join_blank ["i"; "love"; "dogs"]%string)
  = ["i"; "love"; "dogs"]%string.
Proof.
  apply (split_tokens EmptyString ["i"; "love"; "dogs"]%string).
  repeat constructor.
Defined.

(** ** Documents *)

Lemma occurrences_pos x l : 0 < occurrences x l ↔ x ∈ l.
Proof.
  unfold occurrences. split.
  - intros Hpos. destruct (filter (λ w, w = x) l) as [|y k] eqn:E;
      [simpl in Hpos; lia|].
    assert (y ∈ filter (λ w, w = x) l) as Hy by (rewrite E; by left).
    by apply list_elem_of_filter in Hy as [-> ?].
  - intros Hx.
    assert (x ∈ filter (λ w, w = x) l) as Hin by (by apply list_elem_of_filter).
    destruct (filter (λ w, w = x) l); [by apply elem_of_nil in Hin|simpl; lia].
Qed.

Lemma occurrences_le x l : occurrences x l ≤ length l.
Proof. apply length_filter. Qed.

Lemma surviving_clean content t : t ∈ surviving content → clean t = t ∧ PyStr.truthy t = true.
Proof.
  unfold surviving.
  intros [Ht (w & -> & _)%list_elem_of_fmap]%list_elem_of_filter.
  split; [apply clean_idemp|by apply Is_true_eq_true].
Qed.

Lemma length_surviving content :
  length (surviving content) ≤ Document.total_words (PyStr.split content).
Proof.
  unfold surviving. rewrite total_words_max.
  etrans; [apply length_filter|]. rewrite length_fmap. lia.
Qed.

Lemma term_freq_is_Some path content t :
  is_Some (Document.term_freq (Document.init path content) !! t)
  ↔ t ∈ surviving content.
Proof.
  rewrite term_freq_lookup, <- occurrences_pos.
  destruct (occurrences t (surviving content)); split;
    first [by intros [] | lia | by eexists].
Qed.

Lemma get_words_init path content :
  Document.get_words (Document.init path content) = list_to_set (surviving content).
Proof.
  apply set_eq. intros t. unfold Document.get_words.
  by rewrite elem_of_dom, term_freq_is_Some, elem_of_list_to_set.
Qed.

Lemma term_frequency_value path content term :
  (Document.term_frequency (Document.init path content) term
   == inject_Z (Z.of_nat (occurrences (clean term) (surviving content)))
      / inject_Z (Z.of_nat (Document.total_words (PyStr.split content))))%Q.
Proof.
  unfold Document.term_frequency. rewrite term_freq_lookup.
  destruct (occurrences _ _); simpl; [|reflexivity].
  unfold Qdiv. by rewrite Qmult_0_l.
Qed.

Lemma Qdiv_nat_le_1 a b : 0 < b → a ≤ b →
  (inject_Z (Z.of_nat a) / inject_Z (Z.of_nat b) <= 1)%Q.
Proof.
  intros Hb Hab. apply Qle_shift_div_r.
  - unfold Qlt, inject_Z; cbn [Qnum Qden]. lia.
  - rewrite Qmult_1_l. unfold Qle, inject_Z; cbn [Qnum Qden]. lia.
Qed.

Lemma term_frequency_pos path content term :
  (0 < Document.term_frequency (Document.init path content) term)%Q
  ↔ clean term ∈ surviving content.
Proof.
  rewrite <- term_freq_is_Some. unfold Document.term_frequency.
  destruct (Document.term_freq (Document.init path content) !! clean term)
    as [f|] eqn:Hf; cbn [from_option].
  - split; [by eexists|]. intros _. by eapply term_freq_pos.
  - split; [by intros ?%Qlt_irrefl|]. rewrite Hf. by intros [? [=]].
Qed.

(** The frequency of a term in a built document lies between 0 and 1, is
    the same for the term and for its cleaned form, and is positive exactly
    for the terms whose cleaned form is a word of the document. *)
Theorem term_frequency_range (path content term : string) :
  let d := Document.init path content in
  Document.term_frequency d term = Document.term_frequency d (clean term)
  ∧ (0 <= Document.term_frequency d term)%Q
  ∧ (Document.term_frequency d term <= 1)%Q
  ∧ ((0 < Document.term_frequency d term)%Q ↔ clean term ∈ Document.get_words d).
Proof.
  intros d. split; [|split; [|split]].
  - unfold Document.term_frequency. by rewrite clean_idemp.
  - apply term_frequency_nonneg.
  - unfold d. rewrite term_frequency_value. apply Qdiv_nat_le_1.
    + apply total_words_pos.
    + etrans; [apply occurrences_le|apply length_surviving].
  - unfold d. by rewrite get_words_init, elem_of_list_to_set, term_frequency_pos.
Qed.

Lemma term_frequency_range_dogs :
  "dogs"%string
  ∈ Document.get_words (Document.init "p" "Dogs are the greatest pets").
Proof.
  apply (term_frequency_range "p" "Dogs are the greatest pets" "DOGS!").
  by vm_compute.
Defined.

(** The vocabulary of a built document is the set of its surviving tokens:
    the cleaned forms, other than the empty string, of the whitespace
    tokens of the content. *)
Theorem get_words_surviving (path content t : string) :
  t ∈ Document.get_words (Document.init path content)
  ↔ PyStr.truthy t = true ∧ ∃ w, w ∈ PyStr.split content ∧ t = clean w.
Proof.
  rewrite get_words_init, elem_of_list_to_set. unfold surviving.
  rewrite list_elem_of_filter, list_elem_of_fmap. split.
  - intros [Ht (w & -> & Hw)]. split; [by apply Is_true_eq_true|eauto].
  - intros [Ht (w & Hw & ->)]. split; [by apply Is_true_true|eauto].
Qed.

Lemma get_words_surviving_dogs :
  "dogs"%string
  ∈ Document.get_words (Document.init "p" "Dogs are the greatest pets").
Proof.
  apply (get_words_surviving "p" "Dogs are the greatest pets" "dogs").
  split; [by vm_compute|]. exists "Dogs"%string.
  split; [|by vm_compute].
  apply (bool_decide_unpack _). vm_compute. exact I.
Defined.





Lemma get_words_without_words path content :
  surviving content = [] →
  Document.get_words (Document.init path content) = ∅.
Proof. intros Hnone. by rewrite get_words_init, Hnone. Qed.

(** A content whose tokens all clean to the empty string (a blank file, a
    file of punctuation) gives a document without vocabulary: every term
    has frequency 0. *)
Theorem document_without_words (path content term : string) :
  surviving content = [] →
  Document.term_freq (Document.init path content) = ∅
  ∧ Document.get_words (Document.init path content) = ∅
  ∧ Document.term_frequency (Document.init path content) term = 0%Q.
Proof.
  intros Hnone.
  assert (Document.term_freq (Document.init path content) = ∅) as Hempty.
  { apply map_eq. intros t. rewrite term_freq_lookup, Hnone, lookup_empty. done. }
  split; [done|]. split.
  - unfold Document.get_words. rewrite Hempty. apply dom_empty_L.
  - unfold Document.term_frequency. by rewrite Hempty, lookup_empty.
Qed.

Lemma document_without_words_punctuation :
  Document.term_frequency (Document.init "p" "... !!! ?") "dogs" = 0%Q.
Proof.
  apply (document_without_words "p" "... !!! ?" "dogs"). by vm_compute.
Defined.

(** ** The engine *)

Lemma index_file_skip dir extension st entry :
  PyStr.endswith entry.1 extension = false →
  SearchEngine.index_file dir extension st entry = st.
Proof. intros H. unfold SearchEngine.index_file. by rewrite H. Qed.

Lemma fold_index_file_indexed dir extension listing st :
  fold_left (SearchEngine.index_file dir extension) listing st
  = fold_left (SearchEngine.index_file dir extension)
      (indexed_entries extension listing) st.
Proof.
  revert st. induction listing as [|entry listing IH]; intros st; [done|].
  unfold indexed_entries. rewrite filter_cons. cbn [fold_left].
  destruct (PyStr.endswith entry.1 extension) eqn:E.
  - rewrite decide_True by done. cbn [fold_left]. apply IH.
  - rewrite decide_False by (intros []).
    rewrite index_file_skip by done. apply IH.
Qed.

Lemma fold_index_file_heap dir extension listing st :
  SearchEngine.heap (fold_left (SearchEngine.index_file dir extension) listing st)
  = SearchEngine.heap st
    ++ ((λ entry, Document.init (PyStr.os_path_join dir entry.1) entry.2)
          <$> indexed_entries extension listing)
  ∧ SearchEngine.count (fold_left (SearchEngine.index_file dir extension) listing st)
    = SearchEngine.count st + length (indexed_entries extension listing)
  ∧ SearchEngine.path (fold_left (SearchEngine.index_file dir extension) listing st)
    = SearchEngine.path st.
Proof.
  revert st. induction listing as [|entry listing IH]; intros st.
  { cbn. by rewrite app_nil_r, Nat.add_0_r. }
  cbn [fold_left]. destruct (IH (SearchEngine.index_file dir extension st entry))
    as (-> & -> & ->). clear IH.
  unfold indexed_entries. rewrite filter_cons. unfold SearchEngine.index_file.
  destruct (PyStr.endswith entry.1 extension) eqn:E.
  - rewrite decide_True by done. cbn.
    rewrite <- app_assoc. split; [done|]. split; [lia|done].
  - rewrite decide_False by (intros []). done.
Qed.

Lemma heap_init dir extension listing :
  SearchEngine.heap (SearchEngine.init dir extension listing)
  = (λ entry, Document.init (PyStr.os_path_join dir entry.1) entry.2)
      <$> indexed_entries extension listing.
Proof.
  unfold SearchEngine.init.
  by destruct (fold_index_file_heap dir extension listing
                 {| SearchEngine.path := dir; SearchEngine.count := 0;
                    SearchEngine.all_index := ∅; SearchEngine.heap := [] |})
    as (-> & _).
Qed.

Lemma engine_path dir extension listing :
  SearchEngine.path (SearchEngine.init dir extension listing) = dir.
Proof.
  unfold SearchEngine.init.
  by destruct (fold_index_file_heap dir extension listing
                 {| SearchEngine.path := dir; SearchEngine.count := 0;
                    SearchEngine.all_index := ∅; SearchEngine.heap := [] |})
    as (_ & _ & ->).
Qed.

Lemma elem_of_indexed_entries extension listing entry :
  entry ∈ indexed_entries extension listing
  ↔ entry ∈ listing ∧ PyStr.endswith entry.1 extension = true.
Proof.
  unfold indexed_entries. rewrite list_elem_of_filter. split.
  - intros [H ?]. split; [done|]. by apply Is_true_eq_true.
  - intros [? H]. split; [|done]. by rewrite H.
Qed.

(** The engine holds one document per listed file whose name ends with the
    extension, in listing order, built from the text of the file under the
    path [os.path.join(dir, name)]; [count] is the number of these files,
    whatever their text; the other files of the directory change
    nothing. *)
Theorem engine_documents (dir extension : string)
    (listing : list (string * string)) :
  let eng := SearchEngine.init dir extension listing in
  SearchEngine.heap eng
    = (λ entry, Document.init (PyStr.os_path_join dir entry.1) entry.2)
        <$> indexed_entries extension listing
  ∧ SearchEngine.count eng = length (indexed_entries extension listing)
  ∧ SearchEngine.path eng = dir
  ∧ SearchEngine.init dir extension (indexed_entries extension listing) = eng
  ∧ ∀ entry, entry ∈ indexed_entries extension listing
             ↔ entry ∈ listing ∧ ∃ front, entry.1 = front +:+ extension.
Proof.
  intros eng. unfold eng, SearchEngine.init.
  destruct (fold_index_file_heap dir extension listing
              {| SearchEngine.path := dir; SearchEngine.count := 0;
                 SearchEngine.all_index := ∅; SearchEngine.heap := [] |})
    as (-> & -> & ->).
  split; [done|]. split; [done|]. split; [done|]. split.
  - symmetry. apply fold_index_file_indexed.
  - intros entry. by rewrite elem_of_indexed_entries, endswith_iff.
Qed.

Lemma engine_documents_doggos :
  ("doc3.txt", "i love dogs")%string ∈ indexed_entries ".txt" doggos.
Proof.
  apply (engine_documents "doggos" ".txt" doggos).
  split; [|by exists "doc3"%string].
  apply (bool_decide_unpack _). vm_compute. exact I.
Defined.

Lemma index_key_surviving dir extension listing k :
  is_Some (SearchEngine.all_index (SearchEngine.init dir extension listing) !! k) →
  ∃ content, k ∈ surviving content.
Proof.
  intros [l Hl]. pose proof (init_inv dir extension listing) as Hinv.
  destruct (inv_lookup_Some _ _ _ Hinv Hl) as [_ Hpos].
  destruct l as [|r l]; [simpl in Hpos; lia|].
  destruct (inv_lookup_valid _ _ _ r Hinv Hl) as (p & c & _ & Hw); [by left|].
  rewrite get_words_init, elem_of_list_to_set in Hw. eauto.
Qed.

(** Every key of the inverted index is a cleaned, non-empty term; so the
    idf of a term that is not in cleaned form is 0.0. *)
Theorem index_keys_clean (dir extension : string)
    (listing : list (string * string)) (term : string) :
  let eng := SearchEngine.init dir extension listing in
  (is_Some (SearchEngine.all_index eng !! term) →
   clean term = term ∧ PyStr.truthy term = true)
  ∧ (clean term ≠ term → SearchEngine._calculate_idf eng term = Some 0%R).
Proof.
  intros eng.
  assert (is_Some (SearchEngine.all_index eng !! term) →
          clean term = term ∧ PyStr.truthy term = true) as Hkey.
  { intros [content Hk]%index_key_surviving. by eapply surviving_clean. }
  split; [done|]. intros Hne. apply idf_absent.
  destruct (SearchEngine.all_index eng !! term) eqn:E; [|done].
  destruct Hkey as [? _]; [by eexists|done].
Qed.

Lemma index_keys_clean_doggos :
  SearchEngine._calculate_idf doggos_engine "DOGS" = Some 0%R.
Proof.
  apply (index_keys_clean "doggos" ".txt" doggos "DOGS"). by vm_compute.
Defined.

Lemma ln_ratio_pos (n k : nat) : 0 < k < n → (0 < ln (INR n / INR k))%R.
Proof.
  intros [Hk Hn]. rewrite <- ln_1. apply ln_increasing; [lra|].
  apply lt_INR in Hk, Hn. simpl in Hk.
  apply (Rmult_lt_reg_r (INR k)); [done|].
  unfold Rdiv. rewrite Rmult_assoc, Rinv_l by lra. lra.
Qed.

Lemma ln_ratio_same (n : nat) : 0 < n → ln (INR n / INR n) = 0%R.
Proof.
  intros Hn. apply lt_INR in Hn. simpl in Hn.
  unfold Rdiv. rewrite Rinv_r by lra. apply ln_1.
Qed.

Lemma idf_value_of_pos eng term :
  index_inv eng →
  (0 < idf_value_of eng term)%R
  ↔ ∃ l, SearchEngine.all_index eng !! term = Some l
         ∧ length l < SearchEngine.count eng.
Proof.
  intros Hinv. unfold idf_value_of.
  destruct (SearchEngine.all_index eng !! term) as [l|] eqn:Hl.
  - pose proof (inv_lookup_bounds _ _ _ Hinv Hl) as [Hpos Hle]. split.
    + intros Hlt. exists l. split; [done|].
      destruct (decide (length l = SearchEngine.count eng)) as [Heq|]; [|lia].
      rewrite Heq, ln_ratio_same in Hlt by lia. lra.
    + intros (? & [= <-] & Hlt). by apply ln_ratio_pos.
  - split; [lra|]. by intros (? & [=] & _).
Qed.

(** The idf of a term is 0.0 exactly when the term is not indexed or is in
    every document, and it is never more than ln(max(1, count)). *)
Theorem idf_zero_and_bound (dir extension : string)
    (listing : list (string * string)) (term : string) :
  let eng := SearchEngine.init dir extension listing in
  ∃ v, SearchEngine._calculate_idf eng term = Some v
       ∧ (v = 0%R ↔
            SearchEngine.all_index eng !! term = None
            ∨ ∃ l, SearchEngine.all_index eng !! term = Some l
                   ∧ length l = SearchEngine.count eng)
       ∧ (v <= ln (INR (Nat.max 1 (SearchEngine.count eng))))%R.
Proof.
  intros eng. pose proof (init_inv dir extension listing) as Hinv. fold eng in Hinv.
  exists (idf_value_of eng term). split; [by apply idf_value_of_eq|].
  pose proof (idf_value_of_pos eng term Hinv) as Hpos.
  assert (0 <= idf_value_of eng term)%R as Hnn.
  { eapply idf_nonneg; [done|]. by apply idf_value_of_eq. }
  unfold idf_value_of in *.
  destruct (SearchEngine.all_index eng !! term) as [l|] eqn:Hl.
  - pose proof (inv_lookup_bounds _ _ _ Hinv Hl) as [Hl0 Hle]. split.
    + split.
      * intros H0. right. exists l. split; [done|].
        destruct (decide (length l = SearchEngine.count eng)); [done|].
        assert (0 < ln (INR (SearchEngine.count eng) / INR (length l)))%R
          by (apply Hpos; exists l; split; [done|lia]). lra.
      * intros [?|(? & [= <-] & Heq)]; [done|].
        rewrite Heq. apply ln_ratio_same. lia.
    + rewrite Nat.max_r by lia.
      assert (0 < INR (length l))%R as Hk by (apply lt_0_INR; lia).
      assert (1 <= INR (length l))%R as Hk1.
      { replace 1%R with (INR 1) by done. apply le_INR. lia. }
      assert (0 < INR (SearchEngine.count eng))%R as Hn by (apply lt_0_INR; lia).
      assert (INR (SearchEngine.count eng) / INR (length l)
              <= INR (SearchEngine.count eng))%R as Hdiv.
      { apply (Rmult_le_reg_r (INR (length l))); [done|].
        unfold Rdiv. rewrite Rmult_assoc, Rinv_l by lra. nra. }
      destruct Hdiv as [Hlt| ->]; [|apply Rle_refl].
      left. apply ln_increasing; [|done]. apply Rdiv_lt_0_compat; lra.
  - split; [split; [by left|done]|].
    assert (1 <= INR (Nat.max 1 (SearchEngine.count eng)))%R as H1.
    { replace 1%R with (INR 1) by done. apply le_INR. lia. }
    rewrite <- ln_1. destruct H1 as [H1| <-]; [|apply Rle_refl].
    left. apply ln_increasing; [lra|done].
Qed.

Lemma idf_zero_and_bound_absent :
  ∃ v, SearchEngine._calculate_idf doggos_engine "horses" = Some v ∧ v = 0%R.
Proof.
  destruct (idf_zero_and_bound "doggos" ".txt" doggos "horses")
    as (v & Hv & Hzero & _).
  exists v. split; [exact Hv|]. apply Hzero. left. by vm_compute.
Defined.

Lemma init_snoc dir extension listing entry :
  SearchEngine.init dir extension (listing ++ [entry])
  = SearchEngine.index_file dir extension
      (SearchEngine.init dir extension listing) entry.
Proof. unfold SearchEngine.init. by rewrite fold_left_app. Qed.

(** A file with the extension but without any word is still counted: it
    adds one to [count] and nothing to the inverted index, and so raises the
    idf of every indexed term. *)
Theorem file_without_words (dir extension : string)
    (listing : list (string * string)) (name content : string) :
  PyStr.endswith name extension = true → surviving content = [] →
  let eng := SearchEngine.init dir extension listing in
  let eng' := SearchEngine.init dir extension (listing ++ [(name, content)]) in
  SearchEngine.count eng' = SearchEngine.count eng + 1
  ∧ SearchEngine.all_index eng' = SearchEngine.all_index eng
  ∧ ∀ term, is_Some (SearchEngine.all_index eng !! term) →
      ∃ v v', SearchEngine._calculate_idf eng term = Some v
              ∧ SearchEngine._calculate_idf eng' term = Some v'
              ∧ (v < v')%R.
Proof.
  intros Hext Hnone eng eng'.
  pose proof (init_inv dir extension listing) as Hinv. fold eng in Hinv.
  pose proof (init_inv dir extension (listing ++ [(name, content)])) as Hinv'.
  fold eng' in Hinv'.
  assert (SearchEngine.count eng' = SearchEngine.count eng + 1
          ∧ SearchEngine.all_index eng' = SearchEngine.all_index eng) as [Hc Hi].
  { unfold eng'. rewrite init_snoc. fold eng. unfold SearchEngine.index_file.
    cbn [fst snd]. rewrite Hext. cbn.
    rewrite (get_words_without_words _ _ Hnone).
    by rewrite elements_empty. }
  split; [done|]. split; [done|].
  intros term [l Hl]. exists (idf_value_of eng term), (idf_value_of eng' term).
  split; [by apply idf_value_of_eq|]. split; [by apply idf_value_of_eq|].
  unfold idf_value_of. rewrite Hi, Hl, Hc.
  pose proof (inv_lookup_bounds _ _ _ Hinv Hl) as [Hl0 Hle].
  assert (0 < INR (length l))%R as Hk by (apply lt_0_INR; lia).
  assert (0 < INR (SearchEngine.count eng))%R as Hn by (apply lt_0_INR; lia).
  rewrite plus_INR. simpl (INR 1). apply ln_increasing.
  - apply Rdiv_lt_0_compat; lra.
  - unfold Rdiv. apply Rmult_lt_compat_r; [by apply Rinv_0_lt_compat|lra].
Qed.

Lemma file_without_words_doggos :
  SearchEngine.count (SearchEngine.init "doggos" ".txt" (doggos ++ [("e.txt", "?!")]%string))
  = SearchEngine.count (SearchEngine.init "doggos" ".txt" doggos) + 1.
Proof.
  apply (file_without_words "doggos" ".txt" doggos "e.txt" "?!"); by vm_compute.
Defined.

(** ** Search *)

Lemma matching_docs_iff eng terms r :
  index_inv eng →
  r ∈ SearchEngine.matching_docs eng terms
  ↔ ∃ t d, t ∈ terms ∧ SearchEngine.heap eng !! r = Some d
           ∧ t ∈ Document.get_words d.
Proof.
  intros Hinv. rewrite elem_of_matching_docs. split.
  - intros (t & l & Ht & Hl & Hr).
    destruct (inv_lookup_Some _ _ _ Hinv Hl) as [-> _].
    apply elem_of_postings in Hr as (d & Hd & Hw). eauto.
  - intros (t & d & Ht & Hd & Hw).
    assert (r ∈ postings (SearchEngine.heap eng) t) as Hr
      by (apply elem_of_postings; eauto).
    destruct Hinv as (_ & Hindex & _).
    exists t, (postings (SearchEngine.heap eng) t). split; [done|].
    split; [|done]. rewrite Hindex.
    destruct (postings (SearchEngine.heap eng) t); [|done].
    by apply elem_of_nil in Hr.
Qed.

Lemma search_elem iter eng query p :
  set_order iter → index_inv eng →
  p ∈ (λ item : nat * R, path_at eng item.1) <$> ranked iter eng query
  ↔ ∃ r, r ∈ SearchEngine.matching_docs eng (SearchEngine.query_terms query)
         ∧ p = path_at eng r.
Proof.
  intros Hiter Hinv. rewrite list_elem_of_fmap. split.
  - intros (item & -> & [Hr _]%elem_of_ranked).
    rewrite (Hiter _) in Hr. apply elem_of_elements in Hr. eauto.
  - intros (r & Hr & ->).
    assert (r ∈ (ranked iter eng query).*1) as Hin.
    { rewrite ranked_refs by done. by apply elem_of_elements. }
    apply list_elem_of_fmap in Hin as (item & -> & Hitem). eauto.
Qed.

Lemma search_files_iff (iter : gset nat → list nat)
    (dir extension : string) (listing : list (string * string)) (query : string) :
  set_order iter →
  ∃ res,
    SearchEngine.search iter (SearchEngine.init dir extension listing) query
      = Some res
    ∧ ∀ p, p ∈ res ↔
        ∃ entry t, entry ∈ listing
                   ∧ PyStr.endswith entry.1 extension = true
                   ∧ p = PyStr.os_path_join dir entry.1
                   ∧ t ∈ SearchEngine.query_terms query
                   ∧ t ∈ surviving entry.2.
Proof.
  intros Hiter. set (eng := SearchEngine.init dir extension listing).
  pose proof (init_inv dir extension listing) as Hinv. fold eng in Hinv.
  eexists. split; [by apply search_value|].
  intros p. rewrite search_elem by done. split.
  - intros (r & (t & d & Ht & Hd & Hw)%matching_docs_iff & ->); [|done].
    unfold path_at. rewrite Hd. cbn [from_option].
    unfold eng in Hd. rewrite heap_init, list_lookup_fmap in Hd.
    destruct (indexed_entries extension listing !! r) as [entry|] eqn:He; [|done].
    injection Hd as <-.
    apply list_elem_of_lookup_2, elem_of_indexed_entries in He as [? ?].
    rewrite get_words_init, elem_of_list_to_set in Hw.
    exists entry, t. done.
  - intros (entry & t & He & Hext & -> & Ht & Hw).
    assert (entry ∈ indexed_entries extension listing) as Hin
      by (by apply elem_of_indexed_entries).
    apply list_elem_of_lookup in Hin as [r Hr].
    assert (SearchEngine.heap eng !! r
            = Some (Document.init (PyStr.os_path_join dir entry.1) entry.2)) as Hd.
    { unfold eng. by rewrite heap_init, list_lookup_fmap, Hr. }
    exists r. split.
    + apply matching_docs_iff; [done|]. eexists t, _. split; [done|].
      split; [done|]. by rewrite get_words_init, elem_of_list_to_set.
    + unfold path_at. by rewrite Hd.
Qed.

(** [search] returns exactly the files that have the extension and one of
    whose surviving tokens is a cleaned token of the query: the path of
    every such file, and no other path. *)
Theorem search_returns_matching_files (iter : gset nat → list nat)
    (dir extension : string) (listing : list (string * string)) (query : string) :
  set_order iter →
  ∃ res,
    SearchEngine.search iter (SearchEngine.init dir extension listing) query
      = Some res
    ∧ ∀ p, p ∈ res ↔
        ∃ entry t, entry ∈ listing
                   ∧ PyStr.endswith entry.1 extension = true
                   ∧ p = PyStr.os_path_join dir entry.1
                   ∧ t ∈ SearchEngine.query_terms query
                   ∧ t ∈ surviving entry.2.
Proof. apply search_files_iff. Qed.

Lemma search_returns_matching_files_doggos :
  ∃ res, SearchEngine.search elements doggos_engine "Dogs!" = Some res
         ∧ "doggos/doc1.txt"%string ∈ res.
Proof.
  destruct (search_returns_matching_files elements "doggos" ".txt" doggos "Dogs!")
    as (res & Hres & Hiff); [elements_order|].
  exists res. split; [exact Hres|]. apply Hiff.
  exists ("doc1.txt", "dogs are the greatest pets")%string, "dogs"%string.
  split; [by left|].
  split; [vm_compute; reflexivity|]. split; [vm_compute; reflexivity|].
  split; apply (bool_decide_unpack _); vm_compute; exact I.
Defined.

Lemma fold_Rplus_shift xs a : fold_left Rplus xs a = (a + py_sum xs)%R.
Proof.
  unfold py_sum. revert a. induction xs as [|x xs IH]; intros a; simpl; [lra|].
  rewrite (IH (a + x)%R), (IH (0 + x)%R). lra.
Qed.

Lemma py_sum_cons x xs : py_sum (x :: xs) = (x + py_sum xs)%R.
Proof. unfold py_sum at 1. simpl. rewrite fold_Rplus_shift. lra. Qed.

Lemma py_sum_pos_iff xs :
  Forall (λ x, 0 <= x)%R xs → (0 < py_sum xs)%R ↔ Exists (λ x, 0 < x)%R xs.
Proof.
  induction 1 as [|x xs Hx Hxs IH].
  - unfold py_sum; simpl. split; [lra|by intros ?%Exists_nil].
  - rewrite py_sum_cons, Exists_cons, <- IH.
    pose proof (py_sum_nonneg xs Hxs). split; [|lra].
    intros Hpos. destruct (Rlt_dec 0 x); [by left|right; lra].
Qed.

Lemma index_key_clean eng t l :
  index_inv eng → SearchEngine.all_index eng !! t = Some l → clean t = t.
Proof.
  intros Hinv Hl. destruct (inv_lookup_Some _ _ _ Hinv Hl) as [_ Hpos].
  destruct l as [|r0 l]; [simpl in Hpos; lia|].
  destruct (inv_lookup_valid _ _ _ r0 Hinv Hl) as (p & c & _ & Hw); [by left|].
  rewrite get_words_init, elem_of_list_to_set in Hw.
  by destruct (surviving_clean _ _ Hw).
Qed.

Lemma tf_at_pos eng r t l :
  index_inv eng →
  SearchEngine.all_index eng !! t = Some l →
  (0 < Q2R (tf_at eng r t))%R ↔ r ∈ l.
Proof.
  intros Hinv Hl. pose proof (index_key_clean _ _ _ Hinv Hl) as Hclean.
  destruct (inv_lookup_Some _ _ _ Hinv Hl) as [-> _].
  rewrite elem_of_postings. unfold tf_at.
  destruct Hinv as (_ & _ & Hdocs). rewrite Forall_lookup in Hdocs.
  destruct (SearchEngine.heap eng !! r) as [d|] eqn:Hd; cbn [from_option].
  - destruct (Hdocs _ _ Hd) as (p & c & ->).
    pose proof (term_frequency_pos p c t) as Hpos. rewrite Hclean in Hpos.
    split.
    + intros Hlt. exists (Document.init p c). split; [done|].
      rewrite get_words_init, elem_of_list_to_set.
      replace 0%R with (Q2R 0) in Hlt by apply RMicromega.Q2R_0.
      by apply Rlt_Qlt, Hpos in Hlt.
    + intros (d & [= <-] & Hw).
      rewrite get_words_init, elem_of_list_to_set in Hw.
      replace 0%R with (Q2R 0) by apply RMicromega.Q2R_0.
      by apply Qlt_Rlt, Hpos.
  - split; [|by intros (? & [=] & _)].
    rewrite RMicromega.Q2R_0. lra.
Qed.

Lemma tf_at_nonneg eng r t : index_inv eng → (0 <= Q2R (tf_at eng r t))%R.
Proof.
  intros (_ & _ & Hdocs). rewrite Forall_lookup in Hdocs. unfold tf_at.
  destruct (SearchEngine.heap eng !! r) as [d|] eqn:Hd; cbn [from_option].
  - destruct (Hdocs _ _ Hd) as (p & c & ->).
    apply Q2R_nonneg, term_frequency_nonneg.
  - rewrite RMicromega.Q2R_0. lra.
Qed.

Lemma idf_value_of_nonneg eng t : index_inv eng → (0 <= idf_value_of eng t)%R.
Proof. intros Hinv. eapply idf_nonneg; [done|]. by apply idf_value_of_eq. Qed.

(** The score of a stored document is positive exactly when the document
    has a query term that some other document lacks. *)
Lemma score_pos_iff eng terms r :
  index_inv eng → is_Some (SearchEngine.heap eng !! r) →
  (0 < score eng terms r)%R
  ↔ ∃ t l, t ∈ terms ∧ SearchEngine.all_index eng !! t = Some l
           ∧ r ∈ l ∧ length l < SearchEngine.count eng.
Proof.
  intros Hinv Hr. rewrite score_eval by done.
  rewrite py_sum_pos_iff.
  2:{ apply Forall_fmap, Forall_forall. intros t _. cbn.
      apply Rmult_le_pos; [by apply idf_value_of_nonneg|by apply tf_at_nonneg]. }
  rewrite Exists_fmap, Exists_exists. split.
  - intros (t & Ht & Hpos). cbn in Hpos.
    pose proof (idf_value_of_nonneg eng t Hinv) as Hi.
    pose proof (tf_at_nonneg eng r t Hinv) as Hf.
    assert (0 < idf_value_of eng t)%R as Hipos by nra.
    assert (0 < Q2R (tf_at eng r t))%R as Hfpos by nra.
    apply idf_value_of_pos in Hipos as (l & Hl & Hlt); [|done].
    exists t, l. split; [done|]. split; [done|]. split; [|done].
    by apply (tf_at_pos eng r t l).
  - intros (t & l & Ht & Hl & Hrl & Hlt). exists t. split; [done|]. cbn.
    apply Rmult_lt_0_compat.
    + apply idf_value_of_pos; eauto.
    + by apply (tf_at_pos eng r t l).
Qed.

(** A returned document has a positive score exactly when it has a query
    term that is not in every document; otherwise its score is 0. *)
Theorem score_positive_iff (iter : gset nat → list nat)
    (dir extension : string) (listing : list (string * string)) (query : string) :
  set_order iter →
  let eng := SearchEngine.init dir extension listing in
  ∃ items,
    SearchEngine.sorted_docs iter eng query = Some items
    ∧ Forall (λ item : nat * R,
        (0 <= item.2)%R
        ∧ ((0 < item.2)%R ↔
             ∃ t l, t ∈ SearchEngine.query_terms query
                    ∧ SearchEngine.all_index eng !! t = Some l
                    ∧ item.1 ∈ l
                    ∧ length l < SearchEngine.count eng)) items.
Proof.
  intros Hiter eng. pose proof (init_inv dir extension listing) as Hinv.
  fold eng in Hinv. exists (ranked iter eng query).
  split; [by apply sorted_docs_value|]. apply Forall_forall.
  intros item [Hr ->]%elem_of_ranked.
  destruct (candidate_score _ _ _ _ Hiter Hinv Hr) as (_ & Hnn & d & Hd & _).
  split; [done|]. apply score_pos_iff; [done|by eexists].
Qed.

Lemma score_positive_iff_doggos :
  ∃ items,
    SearchEngine.sorted_docs elements doggos_engine "love dogs" = Some items
    ∧ Forall (λ item : nat * R, (0 <= item.2)%R) items.
Proof.
  destruct (score_positive_iff elements "doggos" ".txt" doggos "love dogs")
    as (items & Hitems & Hall); [elements_order|].
  exists items. split; [exact Hitems|].
  eapply Forall_impl; [exact Hall|]. by intros item [? _].
Defined.

(** With at most one indexed file every score is 0: the idf of every term
    is ln(1/1). *)
Theorem single_document_scores_zero (iter : gset nat → list nat)
    (dir extension : string) (listing : list (string * string)) (query : string) :
  set_order iter →
  let eng := SearchEngine.init dir extension listing in
  SearchEngine.count eng ≤ 1 →
  ∃ items,
    SearchEngine.sorted_docs iter eng query = Some items
    ∧ Forall (λ item : nat * R, item.2 = 0%R) items.
Proof.
  intros Hiter eng Hone. pose proof (init_inv dir extension listing) as Hinv.
  fold eng in Hinv. exists (ranked iter eng query).
  split; [by apply sorted_docs_value|]. apply Forall_forall.
  intros item [Hr ->]%elem_of_ranked.
  destruct (candidate_score _ _ _ _ Hiter Hinv Hr) as (_ & Hnn & d & Hd & _).
  destruct Hnn as [Hpos|Hz]; [|done].
  apply score_pos_iff in Hpos as (t & l & _ & Hl & _ & Hlt); [|done|by eexists].
  pose proof (inv_lookup_bounds _ _ _ Hinv Hl). lia.
Qed.

Lemma single_document_scores_zero_example :
  ∃ items,
    SearchEngine.sorted_docs elements
      (SearchEngine.init "d" ".txt" [("a.txt", "dogs dogs")]%string) "dogs"
    = Some items
    ∧ Forall (λ item : nat * R, item.2 = 0%R) items.
Proof.
  apply (single_document_scores_zero elements "d" ".txt"
           [("a.txt", "dogs dogs")]%string "dogs"); [elements_order|].
  by vm_compute.
Defined.

(** ** The directory name *)

Lemma postings_from_term_freq i h1 h2 word :
  Document.term_freq <$> h1 = Document.term_freq <$> h2 →
  postings_from i h1 word = postings_from i h2 word.
Proof.
  revert i h2. induction h1 as [|d1 h1 IH]; intros i [|d2 h2] Heq; try done.
  rewrite !fmap_cons in Heq. injection Heq as Hd Hh.
  cbn [postings_from]. unfold Document.get_words. rewrite Hd.
  by rewrite (IH (S i) h2).
Qed.

Lemma init_same_index dir1 dir2 extension listing :
  same_index (SearchEngine.init dir1 extension listing)
             (SearchEngine.init dir2 extension listing).
Proof.
  assert (Document.term_freq
            <$> SearchEngine.heap (SearchEngine.init dir1 extension listing)
          = Document.term_freq
              <$> SearchEngine.heap (SearchEngine.init dir2 extension listing))
    as Hheap.
  { rewrite !heap_init, <- !list_fmap_compose. by apply list_fmap_ext. }
  split; [|split; [|done]].
  - unfold SearchEngine.init.
    destruct (fold_index_file_heap dir1 extension listing
                {| SearchEngine.path := dir1; SearchEngine.count := 0;
                   SearchEngine.all_index := ∅; SearchEngine.heap := [] |})
      as (_ & -> & _).
    by destruct (fold_index_file_heap dir2 extension listing
                {| SearchEngine.path := dir2; SearchEngine.count := 0;
                   SearchEngine.all_index := ∅; SearchEngine.heap := [] |})
      as (_ & -> & _).
  - apply map_eq. intros word.
    destruct (init_inv dir1 extension listing) as (_ & -> & _).
    destruct (init_inv dir2 extension listing) as (_ & -> & _).
    unfold postings. by rewrite (postings_from_term_freq 0 _ _ word Hheap).
Qed.

Lemma same_index_idf e1 e2 term :
  same_index e1 e2 →
  SearchEngine._calculate_idf e1 term = SearchEngine._calculate_idf e2 term.
Proof.
  intros (Hc & Hi & _). unfold SearchEngine._calculate_idf. by rewrite Hc, Hi.
Qed.

Lemma same_index_matching e1 e2 terms :
  same_index e1 e2 →
  SearchEngine.matching_docs e1 terms = SearchEngine.matching_docs e2 terms.
Proof.
  intros (_ & Hi & _). unfold SearchEngine.matching_docs. by rewrite Hi.
Qed.

Lemma same_index_total_score e1 e2 terms r :
  same_index e1 e2 →
  SearchEngine.total_score e1 terms r = SearchEngine.total_score e2 terms r.
Proof.
  intros Hsame. pose proof Hsame as (_ & _ & Hh).
  apply (f_equal (.!! r)) in Hh. rewrite !list_lookup_fmap in Hh.
  unfold SearchEngine.total_score.
  destruct (SearchEngine.heap e1 !! r) as [d1|],
           (SearchEngine.heap e2 !! r) as [d2|]; try done.
  injection Hh as Htf. cbn. f_equal. apply mapM_ext. intros term.
  rewrite (same_index_idf e1 e2 term Hsame).
  unfold Document.term_frequency. by rewrite Htf.
Qed.

Lemma same_index_sorted_docs iter e1 e2 query :
  same_index e1 e2 →
  SearchEngine.sorted_docs iter e1 query = SearchEngine.sorted_docs iter e2 query.
Proof.
  intros Hsame. unfold SearchEngine.sorted_docs, SearchEngine.big_list.
  rewrite (same_index_matching e1 e2 _ Hsame). f_equal.
  apply mapM_ext. intros r. by rewrite (same_index_total_score e1 e2 _ r Hsame).
Qed.

Lemma path_at_init dir extension listing r :
  is_Some (SearchEngine.heap (SearchEngine.init dir extension listing) !! r) →
  path_at (SearchEngine.init dir extension listing) r
  = PyStr.os_path_join dir (name_at extension listing r).
Proof.
  unfold path_at, name_at. rewrite heap_init, list_lookup_fmap.
  by destruct (indexed_entries extension listing !! r); [|intros [? [=]]].
Qed.

(** The names, without directory, of the files [search] returns. *)
Lemma search_names iter dir extension listing query :
  set_order iter →
  SearchEngine.sorted_docs iter (SearchEngine.init dir extension listing) query
    = Some (ranked iter (SearchEngine.init EmptyString extension listing) query)
  ∧ SearchEngine.search iter (SearchEngine.init dir extension listing) query
    = Some (PyStr.os_path_join dir
              <$> ((λ item : nat * R, name_at extension listing item.1)
                     <$> ranked iter (SearchEngine.init EmptyString extension listing)
                           query)).
Proof.
  intros Hiter.
  set (eng := SearchEngine.init dir extension listing).
  set (eng0 := SearchEngine.init EmptyString extension listing).
  pose proof (init_inv dir extension listing) as Hinv. fold eng in Hinv.
  pose proof (init_inv EmptyString extension listing) as Hinv0. fold eng0 in Hinv0.
  assert (ranked iter eng query = ranked iter eng0 query) as Hranked.
  { pose proof (same_index_sorted_docs iter eng eng0 query
                  (init_same_index _ _ _ _)) as Heq.
    rewrite !sorted_docs_value in Heq by done. by injection Heq. }
  split; [by rewrite sorted_docs_value, Hranked|].
  rewrite search_value, <- Hranked, <- list_fmap_compose by done. f_equal.
  apply list_fmap_ext. intros i item Hitem. cbn.
  apply list_elem_of_lookup_2, elem_of_ranked in Hitem as [Hr _].
  destruct (candidate_score _ _ _ _ Hiter Hinv Hr) as (_ & _ & d & Hd & _).
  apply path_at_init. by eexists.
Qed.



(** ** [__repr__] *)

Lemma string_app_inj_r s1 s2 t : s1 +:+ t = s2 +:+ t → s1 = s2.
Proof.
  intros Heq. apply (f_equal PyStr.rev_string) in Heq.
  rewrite !rev_string_app in Heq. apply (inj (String.app _)) in Heq.
  apply (f_equal PyStr.rev_string) in Heq.
  by rewrite !rev_string_involutive in Heq.
Qed.

(** The representation of a document or of an engine shows its path and
    nothing else: two documents, or two engines, have the same
    representation exactly when they have the same path, whatever they
    hold; the path of a built engine is the directory it was given. *)
Theorem repr_shows_path (d1 d2 : Document.t) (e1 e2 : SearchEngine.t)
    (dir extension : string) (listing : list (string * string)) :
  (Document_repr d1 = Document_repr d2 ↔ Document.get_path d1 = Document.get_path d2)
  ∧ (SearchEngine_repr e1 = SearchEngine_repr e2
     ↔ SearchEngine.path e1 = SearchEngine.path e2)
  ∧ SearchEngine_repr (SearchEngine.init dir extension listing)
    = "SearchEngine('" +:+ dir +:+ "')".
Proof.
  split; [|split].
  - unfold Document_repr, Document.get_path. split; [|by intros ->].
    intros Heq. apply (inj (String.app _)) in Heq.
    by apply string_app_inj_r in Heq.
  - unfold SearchEngine_repr. split; [|by intros ->].
    intros Heq. apply (inj (String.app _)) in Heq.
    by apply string_app_inj_r in Heq.
  - unfold SearchEngine_repr. by rewrite engine_path.
Qed.

Lemma repr_shows_path_doggos :
  Document_repr (Document.init "a.txt" "x") = Document_repr (Document.init "a.txt" "y").
Proof.
  apply (repr_shows_path _ _ doggos_engine doggos_engine "d" ".txt" []).
  reflexivity.
Defined.

(** ** The unit tests *)

Lemma join_ends_with dir name :
  PyStr.startswith name "/" = false →
  ∃ front, PyStr.os_path_join dir name = front +:+ name.
Proof.
  intros Hname. unfold PyStr.os_path_join. rewrite Hname.
  destruct (negb (PyStr.truthy dir) || PyStr.endswith dir "/").
  - by exists dir.
  - exists (dir +:+ "/"). by rewrite string_app_assoc.
Qed.

Lemma endswith_join dir name :
  PyStr.startswith name "/" = false →
  PyStr.endswith (PyStr.os_path_join dir name) name = true.
Proof. intros Hname. apply endswith_iff. by apply join_ends_with. Qed.

Lemma contains_join dir name :
  PyStr.startswith name "/" = false →
  contains (PyStr.os_path_join dir name) name = true.
Proof.
  intros Hname. destruct (join_ends_with dir name Hname) as [front ->].
  rewrite <- (string_app_nil_r name) at 1. apply contains_app.
Qed.

(** [test_term_frequency] does not pass: its first two assertions hold, but
    "dont judge a polish by its first coat" has eight tokens, so the
    frequency of "coat" is 1/8, which is not within the tolerance of
    [pytest.approx(1 / 7)]. *)
Theorem test_term_frequency_fails (folder : string) :
  let '(doc1, doc2, doc3) := TestDocument.sample_docs folder in
  approx_eq (Document.term_frequency doc1 "dogs") (1 # 5) = true
  ∧ approx_eq (Document.term_frequency doc2 "manicures") (1 # 4) = true
  ∧ Document.term_frequency doc3 "coat" = (1 # 8)%Q
  ∧ approx_eq (Document.term_frequency doc3 "coat") (1 # 7) = false
  ∧ ¬ TestDocument.test_term_frequency folder.
Proof.
  unfold TestDocument.test_term_frequency, TestDocument.sample_docs.
  split; [by vm_compute|]. split; [by vm_compute|]. split; [by vm_compute|].
  split; [by vm_compute|]. intros (_ & _ & Hcoat).
  vm_compute in Hcoat. discriminate.
Qed.

Lemma test_term_frequency_fails_tmp :
  ¬ TestDocument.test_term_frequency "/tmp/docs0".
Proof. apply (test_term_frequency_fails "/tmp/docs0"). Defined.

(** [test_get_words] and [test_repr] pass, whatever the temporary folder
    is. *)
Theorem test_get_words_and_repr_pass (folder : string) :
  TestDocument.test_get_words folder ∧ TestDocument.test_repr folder.
Proof.
  unfold TestDocument.test_get_words, TestDocument.test_repr,
    TestDocument.sample_docs.
  split; [split; [|split]|split].
  - rewrite get_words_init. by vm_compute.
  - rewrite get_words_init. apply (bool_decide_unpack _). vm_compute. exact I.
  - rewrite get_words_init. apply (bool_decide_unpack _). vm_compute. exact I.
  - apply startswith_iff. by eexists.
  - unfold Document_repr, path_div. cbn [Document.path Document.init].
    replace ("Document('" +:+ (folder +:+ "/" +:+ "doc1.txt") +:+ "')")
      with (("Document('" +:+ folder +:+ "/") +:+ "doc1.txt" +:+ "')")
      by (by rewrite !string_app_assoc).
    apply contains_app.
Qed.

Lemma love_dogs_doggos (iter : gset nat → list nat)
    (listing : list (string * string)) :
  set_order iter → listing ≡ₚ doggos →
  let eng := SearchEngine.init "doggos" ".txt" listing in
  ∃ (r3 r1 : nat) (s3 s1 : R),
    SearchEngine.sorted_docs iter eng "love dogs" = Some [(r3, s3); (r1, s1)]
    ∧ (s1 < s3)%R
    ∧ SearchEngine.search iter eng "love dogs"
      = Some ["doggos/doc3.txt"; "doggos/doc1.txt"]%string.
Proof.
  intros Hiter Hp eng. unfold doggos in Hp.
  apply permutation_triple in Hp as [-> | [-> | [-> | [-> | [-> | ->]]]]].
  - rank_love_dogs iter eng 2 0 Hiter.
  - rank_love_dogs iter eng 1 0 Hiter.
  - rank_love_dogs iter eng 2 1 Hiter.
  - rank_love_dogs iter eng 1 2 Hiter.
  - rank_love_dogs iter eng 0 1 Hiter.
  - rank_love_dogs iter eng 0 2 Hiter.
Qed.

Lemma join_doggos_inv n m :
  PyStr.os_path_join "doggos" n = "doggos/" +:+ m → n = m.
Proof.
  unfold PyStr.os_path_join.
  destruct (PyStr.startswith n "/") eqn:E.
  - intros ->. by vm_compute in E.
  - replace (negb (PyStr.truthy "doggos") || PyStr.endswith "doggos" "/")
      with false by (by vm_compute).
    change ("doggos" +:+ "/" +:+ n) with ("doggos/" +:+ n).
    by intros ?%(inj (String.app _)).
Qed.

(** The file names "love dogs" ranks, in any directory. *)
Lemma love_dogs_names iter folder listing :
  set_order iter → listing ≡ₚ doggos →
  SearchEngine.search iter (SearchEngine.init folder ".txt" listing) "love dogs"
  = Some [PyStr.os_path_join folder "doc3.txt";
          PyStr.os_path_join folder "doc1.txt"].
Proof.
  intros Hiter Hp.
  destruct (search_names iter "doggos" ".txt" listing "love dogs" Hiter)
    as [_ Hdoggos].
  destruct (search_names iter folder ".txt" listing "love dogs" Hiter)
    as [_ ->].
  destruct (love_dogs_doggos iter listing Hiter Hp) as (_ & _ & _ & _ & _ & _ & Hres).
  rewrite Hres in Hdoggos. injection Hdoggos as Hnames.
  destruct ((λ item : nat * R, name_at ".txt" listing item.1)
              <$> ranked iter (SearchEngine.init EmptyString ".txt" listing)
                    "love dogs") as [|n0 [|n1 [|n2 names]]]; try done.
  cbn [fmap list_fmap] in Hnames |- *. injection Hnames as H0 H1.
  symmetry in H0, H1.
  apply (join_doggos_inv n0 "doc3.txt") in H0 as ->.
  apply (join_doggos_inv n1 "doc1.txt") in H1 as ->. done.
Qed.

(** The three tests of [TestSearchEngine] pass, whatever the temporary
    folder is, in whatever order the folder lists the three files, and in
    whatever order sets are iterated. *)
Theorem test_search_engine_pass (iter : gset nat → list nat)
    (folder : string) (listing : list (string * string)) :
  set_order iter → listing ≡ₚ doggos →
  let engine := TestSearchEngine.search_setup folder listing in
  TestSearchEngine.test_calculate_idf engine
  ∧ TestSearchEngine.test_search_single_term iter engine
  ∧ TestSearchEngine.test_search_multi_term iter engine.
Proof.
  intros Hiter Hp engine. unfold TestSearchEngine.search_setup in engine.
  pose proof (init_inv folder ".txt" listing) as Hinv. fold engine in Hinv.
  assert (∀ entry, entry ∈ doggos → entry ∈ listing) as Hin
    by (intros entry; by rewrite Hp).
  assert (∀ name content t,
            (name, content) ∈ doggos → t ∈ surviving content →
            PyStr.startswith name "/" = false →
            PyStr.endswith name ".txt" = true →
            SearchEngine.all_index engine !! t ≠ None) as Hindexed.
  { intros name content t He Ht _ Hext Hnone.
    assert ((name, content) ∈ indexed_entries ".txt" listing) as Hi
      by (apply elem_of_indexed_entries; auto).
    apply list_elem_of_lookup in Hi as [r Hr].
    assert (r ∈ SearchEngine.matching_docs engine [t]) as Hm.
    { apply matching_docs_iff; [done|]. exists t. eexists. split; [by left|].
      split; [unfold engine; by rewrite heap_init, list_lookup_fmap, Hr|].
      by rewrite get_words_init, elem_of_list_to_set. }
    apply elem_of_matching_docs in Hm as (t' & l & Ht' & Hl & _).
    apply list_elem_of_singleton in Ht' as ->. congruence. }
  split; [|split].
  - split.
    + exists (idf_value_of engine "dogs"). split; [by apply idf_value_of_eq|].
      apply Rlt_gt, idf_value_of_pos; [done|].
      destruct (SearchEngine.all_index engine !! "dogs") as [l|] eqn:Hl.
      2:{ destruct (Hindexed "doc1.txt" "dogs are the greatest pets" "dogs")%string;
            try done; apply (bool_decide_unpack _); vm_compute; exact I. }
      exists l. split; [done|].
      destruct (inv_lookup_Some _ _ _ Hinv Hl) as [-> _].
      assert (SearchEngine.count engine = 3) as ->.
      { unfold engine. destruct (fold_index_file_heap folder ".txt" listing
                {| SearchEngine.path := folder; SearchEngine.count := 0;
                   SearchEngine.all_index := ∅; SearchEngine.heap := [] |})
          as (_ & Hc & _).
        unfold SearchEngine.init. rewrite Hc. unfold indexed_entries.
        by rewrite Hp. }
      assert (length (SearchEngine.heap engine) = 3) as Hlen.
      { unfold engine. rewrite heap_init, length_fmap. unfold indexed_entries.
        by rewrite Hp. }
      assert (∃ r d, SearchEngine.heap engine !! r = Some d
                     ∧ "dogs"%string ∉ Document.get_words d) as (r & d & Hd & Hno).
      { assert (("doc2.txt", "cats seem pretty okay")%string
                ∈ indexed_entries ".txt" listing) as Hi.
        { apply elem_of_indexed_entries. split; [|by vm_compute].
          apply Hin, (bool_decide_unpack _). vm_compute. exact I. }
        apply list_elem_of_lookup in Hi as [r Hr]. exists r. eexists.
        split; [unfold engine; by rewrite heap_init, list_lookup_fmap, Hr|].
        rewrite get_words_init, elem_of_list_to_set.
        apply (bool_decide_unpack _). by vm_compute. }
      assert (r ∉ postings (SearchEngine.heap engine) "dogs") as Hr.
      { rewrite elem_of_postings. intros (d' & Hd' & Hw). congruence. }
      assert (r < length (SearchEngine.heap engine)) as Hlt
        by (by eapply lookup_lt_Some).
      pose proof (NoDup_postings_from 0 (SearchEngine.heap engine) "dogs") as Hnd.
      fold (postings (SearchEngine.heap engine) "dogs") in Hnd.
      assert (postings (SearchEngine.heap engine) "dogs"
              ⊆ filter (λ i, i ≠ r) (seq 0 3)) as Hsub.
      { intros i Hi. apply list_elem_of_filter. split; [by intros ->|].
        apply elem_of_postings in Hi as (di & Hdi & _).
        apply lookup_lt_Some in Hdi. rewrite Hlen in Hdi.
        apply list_elem_of_In, in_seq. lia. }
      assert (postings (SearchEngine.heap engine) "dogs"
              ⊆+ filter (λ i, i ≠ r) (seq 0 3)) as Hle
        by (by apply NoDup_submseteq).
      apply submseteq_length in Hle.
      assert (length (filter (λ i, i ≠ r) (seq 0 3)) = 2) as Hfilter.
      { rewrite Hlen in Hlt. clear -Hlt.
        destruct r as [|[|[|r]]]; [by vm_compute..|lia]. }
      lia.
    + apply idf_absent.
      destruct (SearchEngine.all_index engine !! "nonexistent") as [l|] eqn:Hl;
        [|done].
      destruct (inv_lookup_Some _ _ _ Hinv Hl) as [-> Hpos].
      destruct (postings (SearchEngine.heap engine) "nonexistent")
        as [|r l] eqn:Hpost; [simpl in Hpos; lia|].
      assert (r ∈ postings (SearchEngine.heap engine) "nonexistent") as Hr
        by (rewrite Hpost; by left).
      apply elem_of_postings in Hr as (d & Hd & Hw).
      unfold engine in Hd. rewrite heap_init, list_lookup_fmap in Hd.
      destruct (indexed_entries ".txt" listing !! r) as [entry|] eqn:He; [|done].
      injection Hd as <-.
      apply list_elem_of_lookup_2, elem_of_indexed_entries in He as [He _].
      rewrite Hp in He. rewrite get_words_init, elem_of_list_to_set in Hw.
      clear -He Hw. unfold doggos in He.
      repeat (apply elem_of_cons in He as [-> | He];
              [revert Hw; apply (bool_decide_unpack _); by vm_compute|]).
      by apply elem_of_nil in He.
  - destruct (search_files_iff iter folder ".txt" listing "dogs" Hiter)
      as (res & Hres & Hiff).
    exists res. split; [exact Hres|].
    split; apply existsb_exists.
    + exists (PyStr.os_path_join folder "doc1.txt").
      split; [|by apply contains_join].
      apply list_elem_of_In, Hiff.
      exists ("doc1.txt", "dogs are the greatest pets")%string, "dogs"%string.
      split; [apply Hin, (bool_decide_unpack _); vm_compute; exact I|].
      split; [by vm_compute|]. split; [done|].
      split; apply (bool_decide_unpack _); vm_compute; exact I.
    + exists (PyStr.os_path_join folder "doc3.txt").
      split; [|by apply contains_join].
      apply list_elem_of_In, Hiff.
      exists ("doc3.txt", "i love dogs")%string, "dogs"%string.
      split; [apply Hin, (bool_decide_unpack _); vm_compute; exact I|].
      split; [by vm_compute|]. split; [done|].
      split; apply (bool_decide_unpack _); vm_compute; exact I.
  - eexists _, _, _. split; [by apply love_dogs_names|].
    split; [done|]. split; [by apply endswith_join|].
    split; [done|by apply endswith_join].
Qed.

Lemma test_search_engine_pass_tmp :
  TestSearchEngine.test_search_multi_term elements
    (TestSearchEngine.search_setup "/tmp/doggos0" doggos).
Proof.
  apply (test_search_engine_pass elements "/tmp/doggos0" doggos);
    [elements_order|reflexivity].
Defined.
